(** * The default diff reporter of go-cmp ([cmp/report.go])

    A shallow embedding of [defaultReporter] and of its methods [PushStep],
    [Report], [PopStep], [report] and [String], followed by the properties
    of the push/report/pop protocol and of the truncated diff text. *)

From Stdlib Require Import ZArith List String Ascii Bool Lia DecimalString.
Import ListNotations.
Open Scope Z_scope.

(** ** The pieces of Go the reporter is written with *)

Module Go.

(** [int] on a 64-bit target: two's complement, silent wrap-around. *)
Definition minInt : Z := - 2 ^ 63.
Definition maxInt : Z := 2 ^ 63 - 1.
Definition wrap (z : Z) : Z := (z + 2 ^ 63) mod 2 ^ 64 - 2 ^ 63.
Definition int_add (a b : Z) : Z := wrap (a + b).
Definition int_sub (a b : Z) : Z := wrap (a - b).

(** Run-time panics raised by indexing and slicing.  A panic ends the run:
    nothing of the state is kept after it. *)
Inductive runtimeError : Type :=
| IndexOutOfRange
| SliceBoundsOutOfRange.

Inductive result (A : Type) : Type :=
| Ok (a : A)
| Panic (e : runtimeError).
Arguments Ok {A} a.
Arguments Panic {A} e.

Definition bind {A B : Type} (m : result A) (k : A -> result B) : result B :=
  match m with
  | Ok a => k a
  | Panic e => Panic e
  end.

(** [len] of a slice and of a string.  Go keeps both within [0, maxInt],
    so [len x - 1] never leaves the range of [int] and is written without
    a wrap. *)
Definition len {A : Type} (l : list A) : Z := Z.of_nat (List.length l).
Definition strlen (s : string) : Z := Z.of_nat (String.length s).

(** [l[i]] *)
Definition index {A : Type} (l : list A) (i : Z) : result A :=
  if (i <? 0) || (len l <=? i) then Panic IndexOutOfRange
  else match nth_error l (Z.to_nat i) with
       | Some a => Ok a
       | None => Panic IndexOutOfRange
       end.

(** [l[:j]], for [j] up to [len l]; slicing into spare capacity is not
    modelled (the reporter only ever slices to [len l - 1]). *)
Definition slice_to {A : Type} (l : list A) (j : Z) : result (list A) :=
  if (j <? 0) || (len l <? j) then Panic SliceBoundsOutOfRange
  else Ok (firstn (Z.to_nat j) l).

(** [append(l, a)] *)
Definition append {A : Type} (l : list A) (a : A) : list A := l ++ [a].

Definition newline : ascii := ascii_of_nat 10.
Definition tab : ascii := ascii_of_nat 9.
Definition nl : string := String newline EmptyString.
Definition tb : string := String tab EmptyString.

(** [strings.Count(s, sep)] for a one-byte [sep]. *)
Fixpoint strings_Count (s : string) (sep : ascii) : Z :=
  match s with
  | EmptyString => 0
  | String c s' => (if Ascii.eqb c sep then 1 else 0) + strings_Count s' sep
  end.

(** [strings.Join(l, sep)] *)
Definition strings_Join (l : list string) (sep : string) : string :=
  String.concat sep l.

(** The verb [%d] applied to an [int]. *)
Definition fmt_d (n : Z) : string := NilZero.string_of_int (Z.to_int n).

End Go.

Import Go.

Declare Scope go_scope.
Notation "x <- m ;; k" := (Go.bind m (fun x => k))
  (at level 61, m at next level, right associativity) : go_scope.
Open Scope go_scope.

(** The writer monad that records, next to a value, the calls made to the
    external formatter [value.Format]. *)
Module Fmt.

Definition M (C A : Type) : Type := (list C * A)%type.

Definition ret {C A : Type} (a : A) : M C A := ([], a).

Definition bind {C A B : Type} (m : M C A) (k : A -> M C B) : M C B :=
  let (l1, a) := m in
  let (l2, b) := k a in
  (l1 ++ l2, b).

Definition calls {C A : Type} (m : M C A) : list C := fst m.
Definition value {C A : Type} (m : M C A) : A := snd m.

End Fmt.

Notation "x <~ m ;; k" := (Fmt.bind m (fun x => k))
  (at level 61, m at next level, right associativity) : go_scope.

(** ** [reportFlags] *)

Definition reportFlags : Type := Z.

(** [(1 << iota) / 2] *)
Definition reportFlags_iota (iota : Z) : reportFlags := Z.shiftl 1 iota / 2.

Definition reportEqual : reportFlags := reportFlags_iota 1.
Definition reportUnequal : reportFlags := reportFlags_iota 2.
Definition reportIgnore : reportFlags := reportFlags_iota 3.

(** [value.FormatConfig], with the two fields [report] sets; the others keep
    their zero value throughout. *)
Record FormatConfig : Type := mkFormatConfig
  { UseStringer : bool;
    PrintPrimitiveType : bool }.

(** [reflect.Value] and [PathStep] are opaque to the reporter; a [Path] is
    a slice of steps. *)
Definition Path (PathStep : Type) : Type := list PathStep.

(** What the reporter calls in the rest of the package: [value.Format], and
    [Path.GoString], which is what [%#v] prints for a [Path]. *)
Class External (Value PathStep : Type) : Type :=
  { value_Format : Value -> FormatConfig -> string;
    Path_GoString : Path PathStep -> string }.

Section Reporter.

Context {Value PathStep : Type} {ext : External Value PathStep}.

Local Abbreviation Path := (Path PathStep).

(** Modelled from the spec: [Path.push] is not among the sources; pushStep
    "appends step to the path". *)
Definition Path_push (pa : Path) (s : PathStep) : Path := append pa s.

(** Modelled from the spec: [Path.pop] is not among the sources; popStep
    "removes the last Step", its precondition is "depth > 0" and a
    violation is "a fatal invariant violation". *)
Definition Path_pop (pa : Path) : result Path :=
  slice_to pa (len pa - 1).

(** The embedded [Option] plays no part in the methods below and is left
    out. *)
Record defaultReporter : Type := mkReporter
  { curPath : Path;
    curVals : list (Value * Value);
    diffs : list string;
    ndiffs : Z;
    nbytes : Z;
    nlines : Z }.

(** [new(defaultReporter)] *)
Definition fresh : defaultReporter :=
  {| curPath := []; curVals := []; diffs := [];
     ndiffs := 0; nbytes := 0; nlines := 0 |}.

Definition maxBytes : Z := 4096.
Definition maxLines : Z := 256.

Definition PushStep (ps : PathStep) (x y : Value) (r : defaultReporter)
  : defaultReporter :=
  {| curPath := Path_push (curPath r) ps;
     curVals := append (curVals r) (x, y);
     diffs := diffs r; ndiffs := ndiffs r;
     nbytes := nbytes r; nlines := nlines r |}.

(** A call of [value.Format], recorded. *)
Definition Format (v : Value) (cfg : FormatConfig)
  : Fmt.M (Value * FormatConfig) string :=
  ([(v, cfg)], value_Format v cfg).

Definition friendly : FormatConfig :=
  {| UseStringer := true; PrintPrimitiveType := false |}.
Definition exact : FormatConfig :=
  {| UseStringer := false; PrintPrimitiveType := true |}.

(** [fmt.Sprintf("%#v:\n\t-: %s\n\t+: %s\n", p, sx, sy)] *)
Definition Sprintf_diff (p : Path) (sx sy : string) : string :=
  (Path_GoString p ++ ":" ++ nl ++ tb ++ "-: " ++ sx
     ++ nl ++ tb ++ "+: " ++ sy ++ nl)%string.

Definition report (x y : Value) (p : Path) (r : defaultReporter)
  : Fmt.M (Value * FormatConfig) defaultReporter :=
  let n := int_add (ndiffs r) 1 in
  if (nbytes r <? maxBytes) && (nlines r <? maxLines) then
    sx <~ Format x friendly ;;
    sy <~ Format y friendly ;;
    ss <~ (if String.eqb sx sy then
             sx' <~ Format x exact ;;
             sy' <~ Format y exact ;;
             Fmt.ret (sx', sy')
           else Fmt.ret (sx, sy)) ;;
    let s := Sprintf_diff p (fst ss) (snd ss) in
    Fmt.ret {| curPath := curPath r; curVals := curVals r;
               diffs := append (diffs r) s;
               ndiffs := n;
               nbytes := int_add (nbytes r) (strlen s);
               nlines := int_add (nlines r) (strings_Count s newline) |}
  else
    Fmt.ret {| curPath := curPath r; curVals := curVals r;
               diffs := diffs r; ndiffs := n;
               nbytes := nbytes r; nlines := nlines r |}.

Definition Report (f : reportFlags) (r : defaultReporter)
  : result defaultReporter :=
  if f =? reportUnequal then
    vs <- index (curVals r) (len (curVals r) - 1) ;;
    Ok (Fmt.value (report (fst vs) (snd vs) (curPath r) r))
  else Ok r.

Definition PopStep (r : defaultReporter) : result defaultReporter :=
  p <- Path_pop (curPath r) ;;
  vs <- slice_to (curVals r) (len (curVals r) - 1) ;;
  Ok {| curPath := p; curVals := vs;
        diffs := diffs r; ndiffs := ndiffs r;
        nbytes := nbytes r; nlines := nlines r |}.

(** [String] has a pointer receiver: it is given the reporter and hands it
    back next to the text. *)
Definition String (r : defaultReporter) : string * defaultReporter :=
  let s := strings_Join (diffs r) "" in
  if ndiffs r =? len (diffs r) then (s, r)
  else
    ((s ++ "... " ++ fmt_d (int_sub (ndiffs r) (len (diffs r)))
        ++ " more differences ...")%string, r).

(** ** The calls of the traversal engine *)

Inductive call : Type :=
| CPushStep (ps : PathStep) (x y : Value)
| CReport (f : reportFlags)
| CPopStep.

Definition step (c : call) (r : defaultReporter) : result defaultReporter :=
  match c with
  | CPushStep ps x y => Ok (PushStep ps x y r)
  | CReport f => Report f r
  | CPopStep => PopStep r
  end.

Fixpoint run (cs : list call) (r : defaultReporter)
  : result defaultReporter :=
  match cs with
  | [] => Ok r
  | c :: cs' => r' <- step c r ;; run cs' r'
  end.

(** ** The protocol, read off the calls alone

    The engine's side of the contract, computed from a list of calls without
    looking at the reporter: how many leaves were judged unequal, how deep
    the traversal is, which pushes are still open, and the text of every
    unequal leaf. *)

Definition is_unequal (c : call) : bool :=
  match c with
  | CReport f => f =? reportUnequal
  | _ => false
  end.

Definition is_push (c : call) : bool :=
  match c with CPushStep _ _ _ => true | _ => false end.

Definition is_pop (c : call) : bool :=
  match c with CPopStep => true | _ => false end.

Definition count_calls (f : call -> bool) (cs : list call) : Z :=
  len (filter f cs).

Definition unequal_tally (cs : list call) : Z := count_calls is_unequal cs.
Definition pushes (cs : list call) : Z := count_calls is_push cs.
Definition pops (cs : list call) : Z := count_calls is_pop cs.

(** [protocol d cs] is the depth reached by [cs] from depth [d], provided
    no pop and no unequal verdict is issued at depth 0. *)
Fixpoint protocol (d : nat) (cs : list call) : option nat :=
  match cs with
  | [] => Some d
  | CPushStep _ _ _ :: cs' => protocol (S d) cs'
  | CReport f :: cs' =>
      if (f =? reportUnequal) && Nat.eqb d 0 then None else protocol d cs'
  | CPopStep :: cs' =>
      match d with
      | O => None
      | S d' => protocol d' cs'
      end
  end.

(** A traversal: the pushes and pops are balanced and end at depth 0. *)
Definition balanced (cs : list call) : bool :=
  match protocol 0 cs with
  | Some O => true
  | _ => false
  end.

Definition frame : Type := (PathStep * (Value * Value))%type.

(** The pushes not yet popped, oldest first. *)
Fixpoint open_frames (stk : list frame) (cs : list call)
  : option (list frame) :=
  match cs with
  | [] => Some stk
  | CPushStep ps x y :: cs' => open_frames (stk ++ [(ps, (x, y))]) cs'
  | CReport _ :: cs' => open_frames stk cs'
  | CPopStep :: cs' =>
      match stk with
      | [] => None
      | _ :: _ => open_frames (removelast stk) cs'
      end
  end.

(** The two-pass rendering of one unequal leaf, in the spec's words:
    friendly first, exact when the friendly texts are identical. *)
Definition render (x y : Value) (p : Path) : string :=
  let fx := value_Format x friendly in
  let fy := value_Format y friendly in
  if String.eqb fx fy
  then Sprintf_diff p (value_Format x exact) (value_Format y exact)
  else Sprintf_diff p fx fy.

(** The block of every unequal leaf of [cs], in traversal order. *)
Fixpoint leaves (stk : list frame) (cs : list call) : list string :=
  match cs with
  | [] => []
  | CPushStep ps x y :: cs' => leaves (stk ++ [(ps, (x, y))]) cs'
  | CReport f :: cs' =>
      if f =? reportUnequal then
        match rev stk with
        | (_, (x, y)) :: _ => render x y (map fst stk) :: leaves stk cs'
        | [] => leaves stk cs'
        end
      else leaves stk cs'
  | CPopStep :: cs' => leaves (removelast stk) cs'
  end.

(** The running totals leave room for one more block. *)
Definition has_room (r : defaultReporter) : bool :=
  (nbytes r <? maxBytes) && (nlines r <? maxLines).

(** Bytes and newlines of a list of stored blocks. *)
Definition text_bytes (l : list string) : Z := strlen (strings_Join l "").
Definition text_lines (l : list string) : Z :=
  strings_Count (strings_Join l "") newline.

(** The one-line suffix that stands for [n] omitted differences. *)
Definition more_suffix (n : Z) : string :=
  ("... " ++ fmt_d n ++ " more differences ...")%string.

(** The reporter [report] leaves behind: the tally always moves, the text
    only while there is room. *)
Definition reported (x y : Value) (p : Path) (r : defaultReporter)
  : defaultReporter :=
  if has_room r then
    {| curPath := curPath r; curVals := curVals r;
       diffs := diffs r ++ [render x y p];
       ndiffs := int_add (ndiffs r) 1;
       nbytes := int_add (nbytes r) (strlen (render x y p));
       nlines := int_add (nlines r) (strings_Count (render x y p) newline) |}
  else
    {| curPath := curPath r; curVals := curVals r;
       diffs := diffs r;
       ndiffs := int_add (ndiffs r) 1;
       nbytes := nbytes r; nlines := nlines r |}.

(** What a call that returns has done. *)
Inductive stepped (r : defaultReporter) : call -> defaultReporter -> Prop :=
| stepped_push ps x y :
    stepped r (CPushStep ps x y) (PushStep ps x y r)
| stepped_skip f :
    f <> reportUnequal -> stepped r (CReport f) r
| stepped_unequal vs x y :
    curVals r = vs ++ [(x, y)] ->
    stepped r (CReport reportUnequal) (reported x y (curPath r) r)
| stepped_pop p ps vs v :
    curPath r = p ++ [ps] -> curVals r = vs ++ [v] ->
    stepped r CPopStep
      {| curPath := p; curVals := vs;
         diffs := diffs r; ndiffs := ndiffs r;
         nbytes := nbytes r; nlines := nlines r |}.

(** The reporter's two stacks hold exactly the open frames [stk]. *)
Definition agree (stk : list frame) (r : defaultReporter) : Prop :=
  curPath r = map fst stk /\ curVals r = map snd stk.

(** The running totals account for the stored text, up to the wrap-around
    of [int], and the last stored block was stored while there was room. *)
Definition accounted (r : defaultReporter) : Prop :=
  nbytes r = wrap (text_bytes (diffs r)) /\
  nlines r = wrap (text_lines (diffs r)) /\
  forall init last, diffs r = init ++ [last] ->
    wrap (text_bytes init) < maxBytes /\ wrap (text_lines init) < maxLines.

End Reporter.

Arguments defaultReporter : clear implicits.
Arguments call : clear implicits.
Arguments frame : clear implicits.

(** ** A small instance

    Values carry the text each formatting mode prints for them, steps carry
    their own Go syntax; enough to run the reporter on concrete traversals. *)

Module Demo.

Local Open Scope string_scope.

Record value : Type := mkValue
  { shown : string;   (* what the friendly mode prints *)
    typed : string }. (* what the exact mode prints *)

Definition format (v : value) (cfg : FormatConfig) : string :=
  if UseStringer cfg then shown v else typed v.

Definition gostring (p : Path string) : string := String.concat "" p.

#[global] Instance ext : External value string :=
  {| value_Format := format; Path_GoString := gostring |}.

Definition reporter : Type := defaultReporter value string.

Abbreviation exec := (@run value string ext).
Abbreviation text r := (fst (String r)).

(** The reporter after [cs], or [r] itself when [cs] panics. *)
Definition after (cs : list (call value string)) (r : reporter) : reporter :=
  match exec cs r with
  | Ok r' => r'
  | Panic _ => r
  end.

Definition int (n : Z) : value :=
  {| shown := fmt_d n; typed := "int(" ++ fmt_d n ++ ")" |}.

Definition root : value := {| shown := "{...}"; typed := "Person{...}" |}.

(** Two records that differ in the field [Age] only. *)
Definition age : list (call value string) :=
  [ CPushStep "{Person}" root root;
    CPushStep ".Age" (int 30) (int 31);
    CReport reportUnequal;
    CPopStep;
    CPopStep ].

(** Two distinct errors that both print as [boom]. *)
Definition boom1 : value := {| shown := "boom"; typed := "errors.New(boom)" |}.
Definition boom2 : value := {| shown := "boom"; typed := "fmt.Errorf(boom)" |}.

Definition boom : list (call value string) :=
  [ CPushStep "{error}" boom1 boom2;
    CReport reportUnequal;
    CPopStep ].

(** A slice of [n] elements, all of them unequal. *)
Fixpoint elems (n : nat) : list (call value string) :=
  match n with
  | O => []
  | S n' =>
      (elems n' ++
       [ CPushStep "[i]" (int 0) (int 1); CReport reportUnequal; CPopStep ])%list
  end.

Definition slice (n : nat) : list (call value string) :=
  (CPushStep "{[]int}" root root :: elems n ++ [CPopStep])%list.

(** A root leaf whose two sides print as 5000 bytes each. *)
Definition blob (c : ascii) (n : nat) : string :=
  string_of_list_ascii (repeat c n).

Definition wide (c : ascii) : value :=
  {| shown := blob c 5000; typed := blob c 5000 |}.

Definition huge : list (call value string) :=
  [ CPushStep "{string}" (wide "a") (wide "b");
    CReport reportUnequal;
    CPopStep ].

(** A traversal without any unequal leaf. *)
Definition same : list (call value string) :=
  [ CPushStep "{Person}" root root;
    CPushStep ".Age" (int 30) (int 30);
    CReport reportEqual;
    CPopStep;
    CPushStep ".Name" root root;
    CReport reportIgnore;
    CPopStep;
    CPopStep ].

End Demo.

(** ** The formatter calls of a whole run

    [Report] has no result, so the calls [report] makes to [value.Format]
    are collected here call by call along a run. *)

Section Formatting.

Context {Value PathStep : Type} {ext : External Value PathStep}.

(** The formatter calls made by [Report f] on [r]. *)
Definition Report_calls (f : reportFlags) (r : defaultReporter Value PathStep)
  : list (Value * FormatConfig) :=
  if f =? reportUnequal then
    match index (curVals r) (len (curVals r) - 1) with
    | Ok vs => Fmt.calls (report (fst vs) (snd vs) (curPath r) r)
    | Panic _ => []
    end
  else [].

(** The formatter calls made by [cs] on [r], up to the first panic. *)
Fixpoint formats (cs : list (call Value PathStep))
  (r : defaultReporter Value PathStep) : list (Value * FormatConfig) :=
  match cs with
  | [] => []
  | c :: cs' =>
      (match c with
       | CReport f => Report_calls f r
       | _ => []
       end) ++
      (match step c r with
       | Ok r' => formats cs' r'
       | Panic _ => []
       end)
  end.

End Formatting.

(** What the format gives every block: at least 12 bytes, 3 of them line
    breaks. *)
Definition block_like (b : string) : Prop :=
  12 <= strlen b /\ 3 <= strings_Count b newline.

(** Closes a goal on concrete data by evaluation. *)
Ltac evaluate := vm_compute; first [reflexivity | discriminate].

(** * Facts *)

(** ** Integers, slices and strings *)

Module GoFacts.

Lemma wrap_small (z : Z) : minInt <= z <= maxInt -> wrap z = z.
Proof.
  unfold minInt, maxInt, wrap; intros H.
  rewrite Z.mod_small; lia.
Qed.

Lemma wrap_range (z : Z) : minInt <= wrap z <= maxInt.
Proof.
  unfold minInt, maxInt, wrap.
  pose proof (Z.mod_pos_bound (z + 2 ^ 63) (2 ^ 64)); lia.
Qed.

Lemma wrap_add_l (a b : Z) : wrap (wrap a + b) = wrap (a + b).
Proof.
  unfold wrap.
  replace ((a + 2 ^ 63) mod 2 ^ 64 - 2 ^ 63 + b + 2 ^ 63)
    with ((a + 2 ^ 63) mod 2 ^ 64 + b) by lia.
  rewrite Zplus_mod_idemp_l.
  do 2 f_equal; lia.
Qed.

Lemma wrap_succ_neq (n : Z) : wrap (n + 1) <> n.
Proof.
  unfold wrap; intros H.
  assert (E : (n + 1 + 2 ^ 63) mod 2 ^ 64 = n + 2 ^ 63) by lia.
  assert (B : 0 <= n + 2 ^ 63 < 2 ^ 64)
    by (rewrite <- E; apply Z.mod_pos_bound; lia).
  destruct (Z.eq_dec (n + 2 ^ 63) (2 ^ 64 - 1)) as [L | L].
  - replace (n + 1 + 2 ^ 63) with (0 + 1 * 2 ^ 64) in E by lia.
    rewrite Z_mod_plus_full in E. rewrite Z.mod_0_l in E; lia.
  - rewrite Z.mod_small in E; lia.
Qed.

Lemma len_nonneg {A : Type} (l : list A) : 0 <= len l.
Proof. unfold len; lia. Qed.

Lemma len_app {A : Type} (l1 l2 : list A) : len (l1 ++ l2) = len l1 + len l2.
Proof. unfold len; rewrite length_app; lia. Qed.

Lemma index_nil {A : Type} : index (@nil A) (len (@nil A) - 1) = Panic IndexOutOfRange.
Proof. reflexivity. Qed.

Lemma index_last {A : Type} (l : list A) (a : A) :
  index (l ++ [a]) (len (l ++ [a]) - 1) = Ok a.
Proof.
  unfold index. rewrite len_app. change (len [a]) with 1.
  pose proof (len_nonneg l) as Hl.
  replace ((len l + 1 - 1 <? 0) || (len l + 1 <=? len l + 1 - 1)) with false
    by (symmetry; apply orb_false_iff; split; lia).
  replace (Z.to_nat (len l + 1 - 1)) with (List.length l) by (unfold len; lia).
  rewrite nth_error_app2, Nat.sub_diag by lia. reflexivity.
Qed.

Lemma slice_to_nil {A : Type} :
  slice_to (@nil A) (len (@nil A) - 1) = Panic SliceBoundsOutOfRange.
Proof. reflexivity. Qed.

Lemma slice_to_last {A : Type} (l : list A) (a : A) :
  slice_to (l ++ [a]) (len (l ++ [a]) - 1) = Ok l.
Proof.
  unfold slice_to. rewrite len_app. change (len [a]) with 1.
  pose proof (len_nonneg l) as Hl.
  replace ((len l + 1 - 1 <? 0) || (len l + 1 <? len l + 1 - 1)) with false
    by (symmetry; apply orb_false_iff; split; lia).
  replace (Z.to_nat (len l + 1 - 1)) with (List.length l + 0)%nat
    by (unfold len; lia).
  rewrite firstn_app_2. simpl. rewrite app_nil_r. reflexivity.
Qed.

(** A slice is empty or ends in a last element. *)
Lemma snoc_cases {A : Type} (l : list A) :
  l = [] \/ exists l' a, l = l' ++ [a].
Proof.
  destruct l as [| x l]; [now left | right].
  exists (removelast (x :: l)), (last (x :: l) x).
  apply app_removelast_last; discriminate.
Qed.

Lemma append_nil_r (s : string) : (s ++ "")%string = s.
Proof. induction s as [| c s IH]; simpl; [| rewrite IH]; reflexivity. Qed.

Lemma append_assoc (a b c : string) :
  ((a ++ b) ++ c)%string = (a ++ (b ++ c))%string.
Proof. induction a as [| x a IH]; simpl; [| rewrite IH]; reflexivity. Qed.

Lemma strlen_nonneg (s : string) : 0 <= strlen s.
Proof. unfold strlen; lia. Qed.

Lemma strlen_append (a b : string) :
  strlen (a ++ b) = strlen a + strlen b.
Proof.
  unfold strlen. induction a as [| x a IH]; simpl String.length; lia.
Qed.

Lemma Count_append (a b : string) (c : ascii) :
  strings_Count (a ++ b) c = strings_Count a c + strings_Count b c.
Proof. induction a as [| x a IH]; simpl; lia. Qed.

Lemma Count_bounds (s : string) (c : ascii) :
  0 <= strings_Count s c <= strlen s.
Proof.
  unfold strlen. induction s as [| x s IH]; simpl strings_Count;
    simpl String.length; [lia |].
  destruct (Ascii.eqb x c); lia.
Qed.

Lemma Join_cons (x : string) (l : list string) :
  strings_Join (x :: l) "" = (x ++ strings_Join l "")%string.
Proof.
  unfold strings_Join. destruct l as [| y l]; simpl.
  - now rewrite append_nil_r.
  - reflexivity.
Qed.

Lemma Join_app (l1 l2 : list string) :
  strings_Join (l1 ++ l2) "" =
  (strings_Join l1 "" ++ strings_Join l2 "")%string.
Proof.
  induction l1 as [| x l1 IH]; [reflexivity |].
  rewrite <- app_comm_cons, !Join_cons, IH, append_assoc. reflexivity.
Qed.

Lemma Join_snoc (l : list string) (s : string) :
  strings_Join (l ++ [s]) "" = (strings_Join l "" ++ s)%string.
Proof. rewrite Join_app. reflexivity. Qed.

Lemma Count_digits (d : Decimal.uint) :
  strings_Count (NilEmpty.string_of_uint d) newline = 0.
Proof. induction d; cbn; auto. Qed.

(** [%d] never prints a line break. *)
Lemma fmt_d_one_line (n : Z) : strings_Count (fmt_d n) newline = 0.
Proof.
  unfold fmt_d. destruct (Z.to_int n) as [d | d]; cbn;
    destruct d; cbn; try reflexivity; apply Count_digits.
Qed.

End GoFacts.

(** ** One call at a time *)

Section ReporterFacts.

Context {Value PathStep : Type} {ext : External Value PathStep}.

Local Abbreviation reporter := (defaultReporter Value PathStep).
Local Abbreviation trace := (list (call Value PathStep)).

Lemma report_value (x y : Value) (p : Path PathStep) (r : reporter) :
  Fmt.value (report x y p r) = reported x y p r.
Proof.
  unfold report, reported, render, has_room.
  destruct ((nbytes r <? maxBytes) && (nlines r <? maxLines)); [| reflexivity].
  cbn [Format Fmt.bind Fmt.ret Fmt.value fst snd].
  destruct (String.eqb (value_Format x friendly) (value_Format y friendly));
    reflexivity.
Qed.

Lemma report_calls (x y : Value) (p : Path PathStep) (r : reporter) :
  Fmt.calls (report x y p r) =
  if has_room r then
    [(x, friendly); (y, friendly)] ++
    (if String.eqb (value_Format x friendly) (value_Format y friendly)
     then [(x, exact); (y, exact)] else [])
  else [].
Proof.
  unfold report, has_room.
  destruct ((nbytes r <? maxBytes) && (nlines r <? maxLines)); [| reflexivity].
  cbn [Format Fmt.bind Fmt.ret Fmt.calls fst snd].
  destruct (String.eqb (value_Format x friendly) (value_Format y friendly));
    reflexivity.
Qed.

Lemma Report_other (f : reportFlags) (r : reporter) :
  f <> reportUnequal -> Report f r = Ok r.
Proof.
  intros H. unfold Report.
  destruct (Z.eqb_spec f reportUnequal); [contradiction | reflexivity].
Qed.

Lemma Report_unequal_empty (r : reporter) :
  curVals r = [] -> Report reportUnequal r = Panic IndexOutOfRange.
Proof.
  intros H. unfold Report. rewrite Z.eqb_refl, H. reflexivity.
Qed.

Lemma Report_unequal_last (r : reporter) (vs : list (Value * Value))
  (x y : Value) :
  curVals r = vs ++ [(x, y)] ->
  Report reportUnequal r = Ok (reported x y (curPath r) r).
Proof.
  intros H. unfold Report.
  rewrite Z.eqb_refl, H, GoFacts.index_last.
  cbn [Go.bind fst snd]. now rewrite report_value.
Qed.

Lemma PopStep_empty (r : reporter) :
  curPath r = [] \/ curVals r = [] ->
  PopStep r = Panic SliceBoundsOutOfRange.
Proof.
  unfold PopStep, Path_pop. intros [H | H].
  - rewrite H. reflexivity.
  - rewrite H. unfold slice_to at 1.
    destruct ((len (curPath r) - 1 <? 0) || (len (curPath r) <? len (curPath r) - 1));
      reflexivity.
Qed.

Lemma PopStep_last (r : reporter) (p : Path PathStep) (ps : PathStep)
  (vs : list (Value * Value)) (v : Value * Value) :
  curPath r = p ++ [ps] -> curVals r = vs ++ [v] ->
  PopStep r = Ok {| curPath := p; curVals := vs;
                    diffs := diffs r; ndiffs := ndiffs r;
                    nbytes := nbytes r; nlines := nlines r |}.
Proof.
  intros Hp Hv. unfold PopStep, Path_pop.
  rewrite Hp, Hv, !GoFacts.slice_to_last. reflexivity.
Qed.

Lemma step_stepped (c : call Value PathStep) (r r' : reporter) :
  step c r = Ok r' -> stepped r c r'.
Proof.
  destruct c as [ps x y | f |]; cbn [step].
  - intros [= <-]. constructor.
  - destruct (Z.eq_dec f reportUnequal) as [-> | Hf].
    + destruct (GoFacts.snoc_cases (curVals r)) as [E | (vs & [x y] & E)].
      * rewrite (Report_unequal_empty r E). discriminate.
      * rewrite (Report_unequal_last r vs x y E). intros [= <-].
        now apply stepped_unequal with vs.
    + rewrite (Report_other f r Hf). intros [= <-]. now constructor.
  - destruct (GoFacts.snoc_cases (curPath r)) as [E | (p & ps & E)].
    { rewrite PopStep_empty by now left. discriminate. }
    destruct (GoFacts.snoc_cases (curVals r)) as [E' | (vs & v & E')].
    { rewrite PopStep_empty by now right. discriminate. }
    rewrite (PopStep_last r p ps vs v E E'). intros [= <-].
    now apply stepped_pop with ps v.
Qed.

Lemma stepped_step (c : call Value PathStep) (r r' : reporter) :
  stepped r c r' -> step c r = Ok r'.
Proof.
  intros H. destruct H; cbn [step].
  - reflexivity.
  - now apply Report_other.
  - now apply Report_unequal_last with vs.
  - now apply PopStep_last with ps v.
Qed.

Lemma run_cons (c : call Value PathStep) (cs : trace) (r r' : reporter) :
  run (c :: cs) r = Ok r' ->
  exists r1, stepped r c r1 /\ run cs r1 = Ok r'.
Proof.
  cbn [run]. destruct (step c r) as [r1 | e] eqn:E;
    cbn [Go.bind]; [| discriminate].
  intros H. exists r1. split; [now apply step_stepped | exact H].
Qed.

(** ** Sequences of calls *)

Lemma run_app (cs1 cs2 : trace) (r : reporter) :
  run (cs1 ++ cs2) r = (r1 <- run cs1 r ;; run cs2 r1).
Proof.
  revert r. induction cs1 as [| c cs1 IH]; intros r; [reflexivity |].
  cbn [app run]. destruct (step c r) as [r1 | e];
    cbn [Go.bind]; [apply IH | reflexivity].
Qed.

Lemma run_one (c : call Value PathStep) (r r' : reporter) :
  step c r = Ok r' -> run [c] r = Ok r'.
Proof. intros H. cbn [run]. now rewrite H. Qed.

Lemma count_calls_cons (f : call Value PathStep -> bool)
  (c : call Value PathStep) (cs : trace) :
  count_calls f (c :: cs) = (if f c then 1 else 0) + count_calls f cs.
Proof.
  unfold count_calls, len. cbn [filter].
  destruct (f c); cbn [List.length]; lia.
Qed.

Lemma count_calls_nonneg (f : call Value PathStep -> bool) (cs : trace) :
  0 <= count_calls f cs.
Proof. apply GoFacts.len_nonneg. Qed.

(** *** The two stacks *)

Lemma agree_snoc (stk : list (frame Value PathStep)) (r : reporter)
  (vs : list (Value * Value)) (v : Value * Value) :
  agree stk r -> curVals r = vs ++ [v] ->
  exists stk0 ps,
    stk = stk0 ++ [(ps, v)] /\ curPath r = map fst stk0 ++ [ps] /\
    vs = map snd stk0.
Proof.
  intros [Hp Hv] E.
  destruct (GoFacts.snoc_cases stk) as [-> | (stk0 & [ps w] & ->)].
  - rewrite E in Hv. destruct vs; discriminate.
  - rewrite map_app in Hp, Hv. cbn [map fst snd] in Hp, Hv.
    rewrite E in Hv. apply app_inj_tail in Hv as [-> ->].
    exists stk0, ps. repeat split. exact Hp.
Qed.

Lemma open_frames_pop (stk : list (frame Value PathStep))
  (fr : frame Value PathStep) (cs : trace) :
  open_frames (stk ++ [fr]) (CPopStep :: cs) = open_frames stk cs.
Proof.
  cbn [open_frames]. destruct (stk ++ [fr]) eqn:E.
  - symmetry in E. now apply app_cons_not_nil in E.
  - rewrite <- E, removelast_last. reflexivity.
Qed.

Lemma run_frames (cs : trace) :
  forall (r r' : reporter) (stk : list (frame Value PathStep)),
    run cs r = Ok r' -> agree stk r ->
    exists stk', open_frames stk cs = Some stk' /\ agree stk' r'.
Proof.
  induction cs as [| c cs IH]; intros r r' stk Hrun Hag.
  - injection Hrun as <-. now exists stk.
  - apply run_cons in Hrun as (r1 & Hst & Hrun).
    destruct Hst as [ps x y | f Hf | vs x y E | p ps vs v Ep Ev].
    + apply (IH _ _ (stk ++ [(ps, (x, y))])) in Hrun; [exact Hrun |].
      destruct Hag as [Hp Hv]. unfold agree, PushStep, Path_push, append.
      cbn [curPath curVals]. rewrite !map_app, Hp, Hv. split; reflexivity.
    + now apply (IH _ _ stk) in Hrun.
    + apply (IH _ _ stk) in Hrun; [exact Hrun |].
      unfold reported, agree in *. now destruct (has_room r).
    + destruct (agree_snoc stk r vs v Hag Ev) as (stk0 & ps' & -> & Ep' & ->).
      rewrite open_frames_pop. apply (IH _ _ stk0) in Hrun; [exact Hrun |].
      rewrite Ep in Ep'. apply app_inj_tail in Ep' as [-> _].
      split; reflexivity.
Qed.

(** *** The tally *)

Lemma run_tally (cs : trace) :
  forall (r r' : reporter),
    run cs r = Ok r' ->
    minInt <= ndiffs r -> ndiffs r + unequal_tally cs <= maxInt ->
    ndiffs r' = ndiffs r + unequal_tally cs.
Proof.
  unfold unequal_tally.
  induction cs as [| c cs IH]; intros r r' Hrun Hlo Hhi.
  - injection Hrun as <-. cbn. lia.
  - apply run_cons in Hrun as (r1 & Hst & Hrun).
    rewrite count_calls_cons in *.
    pose proof (count_calls_nonneg is_unequal cs) as Hn.
    destruct Hst as [ps x y | f Hf | vs x y E | p ps vs v Ep Ev];
      cbn [is_unequal] in *.
    + apply IH in Hrun; cbn [PushStep ndiffs] in *; lia.
    + destruct (Z.eqb_spec f reportUnequal); [contradiction |].
      apply IH in Hrun; lia.
    + rewrite Z.eqb_refl in *.
      assert (En : ndiffs (reported x y (curPath r) r) = ndiffs r + 1).
      { unfold reported.
        destruct (has_room r); cbn [ndiffs]; unfold int_add;
          apply GoFacts.wrap_small; lia. }
      apply IH in Hrun; lia.
    + apply IH in Hrun; cbn [ndiffs] in *; lia.
Qed.

(** *** The latch *)

Lemma run_latched (cs : trace) :
  forall (r r' : reporter),
    has_room r = false -> run cs r = Ok r' ->
    diffs r' = diffs r /\ nbytes r' = nbytes r /\ nlines r' = nlines r.
Proof.
  induction cs as [| c cs IH]; intros r r' Hfull Hrun.
  - injection Hrun as <-. auto.
  - apply run_cons in Hrun as (r1 & Hst & Hrun).
    assert (Hkeep : diffs r1 = diffs r /\ nbytes r1 = nbytes r /\
                    nlines r1 = nlines r).
    { destruct Hst; cbn; auto.
      unfold reported. rewrite Hfull. cbn. auto. }
    destruct Hkeep as (Ed & Eb & El).
    apply IH in Hrun.
    + rewrite <- Ed, <- Eb, <- El. exact Hrun.
    + unfold has_room in *. now rewrite Eb, El.
Qed.

(** *** The running totals *)

Lemma text_bytes_snoc (l : list string) (b : string) :
  text_bytes (l ++ [b]) = text_bytes l + strlen b.
Proof.
  unfold text_bytes. now rewrite GoFacts.Join_snoc, GoFacts.strlen_append.
Qed.

Lemma text_lines_snoc (l : list string) (b : string) :
  text_lines (l ++ [b]) = text_lines l + strings_Count b newline.
Proof.
  unfold text_lines. now rewrite GoFacts.Join_snoc, GoFacts.Count_append.
Qed.

Lemma text_lines_bounds (l : list string) :
  0 <= text_lines l <= text_bytes l.
Proof. apply GoFacts.Count_bounds. Qed.

Lemma accounted_fresh : accounted (@fresh Value PathStep).
Proof.
  unfold accounted. do 2 (split; [reflexivity |]).
  intros init last E. destruct init; discriminate.
Qed.

Lemma stepped_accounted (c : call Value PathStep) (r r' : reporter) :
  stepped r c r' -> accounted r -> accounted r'.
Proof.
  intros Hst Hacc. destruct Hst; try exact Hacc.
  unfold reported. destruct (has_room r) eqn:Hroom; [| exact Hacc].
  destruct Hacc as (Hb & Hl & _).
  unfold accounted; cbn [diffs nbytes nlines]. repeat split.
  - unfold int_add. now rewrite text_bytes_snoc, Hb, GoFacts.wrap_add_l.
  - unfold int_add. now rewrite text_lines_snoc, Hl, GoFacts.wrap_add_l.
  - apply app_inj_tail in H0 as [<- _].
    unfold has_room in Hroom. apply andb_true_iff in Hroom as [B _].
    rewrite <- Hb. lia.
  - apply app_inj_tail in H0 as [<- _].
    unfold has_room in Hroom. apply andb_true_iff in Hroom as [_ L].
    rewrite <- Hl. lia.
Qed.

Lemma run_accounted (cs : trace) :
  forall (r r' : reporter),
    run cs r = Ok r' -> accounted r -> accounted r'.
Proof.
  induction cs as [| c cs IH]; intros r r' Hrun Hacc.
  - now injection Hrun as <-.
  - apply run_cons in Hrun as (r1 & Hst & Hrun).
    eapply IH; [exact Hrun |]. eapply stepped_accounted; eassumption.
Qed.

(** *** The stored blocks *)

Lemma leaves_unequal (stk : list (frame Value PathStep)) (ps : PathStep)
  (x y : Value) (cs : trace) :
  leaves (stk ++ [(ps, (x, y))]) (CReport reportUnequal :: cs) =
  render x y (map fst (stk ++ [(ps, (x, y))]))
    :: leaves (stk ++ [(ps, (x, y))]) cs.
Proof.
  cbn [leaves]. rewrite Z.eqb_refl, rev_app_distr. reflexivity.
Qed.

Lemma run_leaves (cs : trace) :
  forall (r r' : reporter) (stk : list (frame Value PathStep)),
    run cs r = Ok r' -> agree stk r ->
    exists k, diffs r' = diffs r ++ firstn k (leaves stk cs).
Proof.
  induction cs as [| c cs IH]; intros r r' stk Hrun Hag.
  - injection Hrun as <-. exists 0%nat. cbn. now rewrite app_nil_r.
  - pose proof Hrun as Hall.
    apply run_cons in Hrun as (r1 & Hst & Hrun).
    destruct Hst as [ps x y | f Hf | vs x y E | p ps vs v Ep Ev].
    + destruct (run_frames [CPushStep ps x y] r (PushStep ps x y r) stk
                  eq_refl Hag) as (stk' & [= <-] & Hag').
      apply (IH _ _ _ Hrun Hag').
    + cbn [leaves].
      destruct (Z.eqb_spec f reportUnequal); [contradiction |].
      apply (IH _ _ _ Hrun Hag).
    + destruct (agree_snoc stk r vs (x, y) Hag E)
        as (stk0 & ps & -> & Ep & ->).
      rewrite leaves_unequal.
      destruct (has_room r) eqn:Hroom.
      * assert (Hag1 : agree (stk0 ++ [(ps, (x, y))])
                         (reported x y (curPath r) r)).
        { unfold reported, agree in *. now rewrite Hroom. }
        destruct (IH _ _ _ Hrun Hag1) as (k & Hk).
        exists (S k). rewrite Hk. unfold reported.
        rewrite Hroom. cbn [diffs firstn].
        rewrite <- app_assoc. now rewrite (proj1 Hag).
      * exists 0%nat. cbn [firstn]. rewrite app_nil_r.
        apply run_latched in Hrun as (Ed & _).
        -- rewrite Ed. unfold reported. now rewrite Hroom.
        -- unfold reported. now rewrite Hroom.
    + destruct (run_frames [CPopStep] r _ stk
                  (run_one CPopStep r _ (PopStep_last r p ps vs v Ep Ev)) Hag)
        as (stk' & Hof & Hag').
      destruct (agree_snoc stk r vs v Hag Ev) as (stk0 & ps' & -> & _ & _).
      rewrite open_frames_pop in Hof. injection Hof as <-.
      cbn [leaves]. rewrite removelast_last.
      apply (IH _ _ _ Hrun Hag').
Qed.

(** *** Balanced calls never panic, unbalanced ones always do *)

Lemma protocol_run (cs : trace) :
  forall (r : reporter) (d d' : nat),
    List.length (curPath r) = d -> List.length (curVals r) = d ->
    protocol d cs = Some d' ->
    exists r', run cs r = Ok r' /\
               List.length (curPath r') = d' /\ List.length (curVals r') = d'.
Proof.
  induction cs as [| c cs IH]; intros r d d' Hp Hv Hd.
  - injection Hd as <-. now exists r.
  - destruct c as [ps x y | f |]; cbn [protocol run step] in *.
    + cbn [Go.bind]. apply (IH _ (S d)); [| | exact Hd];
        unfold PushStep, Path_push, append; cbn [curPath curVals];
        rewrite length_app; cbn [List.length]; lia.
    + destruct (Z.eq_dec f reportUnequal) as [-> | Hf].
      * rewrite Z.eqb_refl in Hd. cbn [andb] in Hd.
        destruct (Nat.eqb_spec d 0); [discriminate |].
        destruct (GoFacts.snoc_cases (curVals r)) as [E | (vs & [x y] & E)].
        { rewrite E in Hv. cbn in Hv. lia. }
        rewrite (Report_unequal_last r vs x y E). cbn [Go.bind].
        apply (IH _ d); [| | exact Hd];
          unfold reported; now destruct (has_room r).
      * rewrite (Report_other f r Hf). cbn [Go.bind].
        destruct (Z.eqb_spec f reportUnequal); [contradiction |].
        cbn [andb] in Hd. now apply (IH _ d).
    + destruct d as [| d0]; [discriminate |].
      destruct (GoFacts.snoc_cases (curPath r)) as [E | (p & ps & E)].
      { rewrite E in Hp. discriminate. }
      destruct (GoFacts.snoc_cases (curVals r)) as [E' | (vs & v & E')].
      { rewrite E' in Hv. discriminate. }
      rewrite (PopStep_last r p ps vs v E E'). cbn [Go.bind].
      rewrite E, length_app in Hp. rewrite E', length_app in Hv.
      cbn [List.length] in Hp, Hv.
      apply (IH _ d0); [| | exact Hd]; cbn [curPath curVals]; lia.
Qed.

Lemma run_protocol (cs : trace) :
  forall (r r' : reporter),
    List.length (curPath r) = List.length (curVals r) ->
    run cs r = Ok r' ->
    protocol (List.length (curVals r)) cs = Some (List.length (curVals r')) /\
    List.length (curPath r') = List.length (curVals r').
Proof.
  induction cs as [| c cs IH]; intros r r' Hlen Hrun.
  - injection Hrun as <-. now split.
  - apply run_cons in Hrun as (r1 & Hst & Hrun).
    destruct Hst as [ps x y | f Hf | vs x y E | p ps vs v Ep Ev];
      cbn [protocol].
    + replace (S (List.length (curVals r)))
        with (List.length (curVals (PushStep ps x y r)))
        by (cbn; unfold append; rewrite length_app; cbn; lia).
      apply IH; [| exact Hrun].
      cbn. unfold Path_push, append. rewrite !length_app. cbn. lia.
    + destruct (Z.eqb_spec f reportUnequal); [contradiction |].
      cbn [andb]. now apply IH.
    + rewrite Z.eqb_refl. cbn [andb].
      destruct (Nat.eqb_spec (List.length (curVals r)) 0) as [E0 | _].
      { rewrite E, length_app in E0. cbn in E0. lia. }
      assert (Es : curPath (reported x y (curPath r) r) = curPath r /\
                   curVals (reported x y (curPath r) r) = curVals r).
      { unfold reported. now destruct (has_room r). }
      destruct Es as [Es1 Es2]. rewrite <- Es2. apply IH; [| exact Hrun].
      now rewrite Es1, Es2.
    + rewrite Ev, length_app. cbn [List.length].
      replace (List.length vs + 1)%nat with (S (List.length vs)) by lia.
      rewrite Ep, Ev, !length_app in Hlen. cbn [List.length] in Hlen.
      apply (IH _ r') in Hrun; [exact Hrun |]. cbn [curPath curVals]. lia.
Qed.

Lemma protocol_app (cs1 cs2 : trace) :
  forall d d' : nat,
    protocol d (cs1 ++ cs2) = Some d' ->
    exists d1, protocol d cs1 = Some d1 /\ protocol d1 cs2 = Some d'.
Proof.
  induction cs1 as [| c cs1 IH]; intros d d' H.
  - now exists d.
  - destruct c as [ps x y | f |]; cbn [app protocol] in *.
    + now apply IH.
    + destruct ((f =? reportUnequal) && Nat.eqb d 0); [discriminate |].
      now apply IH.
    + destruct d; [discriminate | now apply IH].
Qed.

(** *** Depth *)

Lemma run_depth (cs : trace) :
  forall (r r' : reporter),
    run cs r = Ok r' ->
    len (curPath r') = len (curPath r) + pushes cs - pops cs.
Proof.
  unfold pushes, pops.
  induction cs as [| c cs IH]; intros r r' Hrun.
  - injection Hrun as <-. cbn. lia.
  - apply run_cons in Hrun as (r1 & Hst & Hrun).
    apply IH in Hrun. rewrite !count_calls_cons.
    destruct Hst as [ps x y | f Hf | vs x y E | p ps vs v Ep Ev];
      cbn [is_push is_pop].
    + unfold PushStep, Path_push, append in Hrun. cbn [curPath] in Hrun.
      rewrite GoFacts.len_app in Hrun. change (len [ps]) with 1 in Hrun. lia.
    + lia.
    + replace (curPath (reported x y (curPath r) r)) with (curPath r) in Hrun
        by (unfold reported; now destruct (has_room r)).
      lia.
    + cbn [curPath] in Hrun. rewrite Ep, GoFacts.len_app.
      change (len [ps]) with 1. lia.
Qed.

(** *** Traversals without an unequal leaf *)

Lemma run_quiet (cs : trace) :
  forall (r r' : reporter),
    existsb is_unequal cs = false -> run cs r = Ok r' ->
    diffs r' = diffs r /\ ndiffs r' = ndiffs r.
Proof.
  induction cs as [| c cs IH]; intros r r' Hq Hrun.
  - injection Hrun as <-. auto.
  - cbn [existsb] in Hq. apply orb_false_iff in Hq as [Hc Hq].
    apply run_cons in Hrun as (r1 & Hst & Hrun).
    apply (IH _ _ Hq) in Hrun.
    destruct Hst; cbn [is_unequal] in Hc; try exact Hrun.
    now rewrite Z.eqb_refl in Hc.
Qed.

(** *** The final text *)

Lemma leaves_length (cs : trace) :
  forall stk : list (frame Value PathStep),
    len (leaves stk cs) <= unequal_tally cs.
Proof.
  unfold unequal_tally.
  induction cs as [| c cs IH]; intros stk; [cbn; lia |].
  rewrite count_calls_cons.
  destruct c as [ps x y | f |]; cbn [leaves is_unequal].
  - specialize (IH (stk ++ [(ps, (x, y))])). lia.
  - destruct (f =? reportUnequal).
    + destruct (rev stk) as [| [ps [x y]] t].
      * specialize (IH stk). lia.
      * change (render x y (map fst stk) :: leaves stk cs)
          with ([render x y (map fst stk)] ++ leaves stk cs).
        rewrite GoFacts.len_app. specialize (IH stk).
        change (len [render x y (map fst stk)]) with 1. lia.
    + specialize (IH stk). lia.
  - specialize (IH (removelast stk)). lia.
Qed.

Lemma String_text (r : reporter) :
  fst (String r) =
  if ndiffs r =? len (diffs r) then strings_Join (diffs r) ""
  else (strings_Join (diffs r) "" ++
        more_suffix (int_sub (ndiffs r) (len (diffs r))))%string.
Proof.
  unfold String, more_suffix.
  destruct (ndiffs r =? len (diffs r)); reflexivity.
Qed.

Lemma more_suffix_one_line (n : Z) :
  strings_Count (more_suffix n) newline = 0.
Proof.
  unfold more_suffix.
  rewrite !GoFacts.Count_append, GoFacts.fmt_d_one_line. reflexivity.
Qed.

(** ** The properties of the reporter *)

(** C1, as the code has it.  [report] appends the block of an unequal leaf
    exactly when the running totals it finds are both below their caps
    (fewer than 4096 bytes and fewer than 256 newlines stored so far),
    whatever the size of the block itself.  Hence, after any calls on a
    fresh reporter whose stored text fits an [int], the totals are the bytes
    and newlines of the stored text, and the stored text without its last
    block has fewer than 4096 bytes and fewer than 256 newlines. *)
Theorem stored_text_within_caps_but_last (cs : trace) (r : reporter) :
  run cs fresh = Ok r ->
  text_bytes (diffs r) <= maxInt ->
  (forall x y p,
     diffs (Fmt.value (report x y p r)) =
     if (nbytes r <? maxBytes) && (nlines r <? maxLines)
     then diffs r ++ [render x y p] else diffs r) /\
  nbytes r = text_bytes (diffs r) /\
  nlines r = text_lines (diffs r) /\
  text_bytes (removelast (diffs r)) < maxBytes /\
  text_lines (removelast (diffs r)) < maxLines.
Proof.
  intros Hrun Hfit.
  pose proof (run_accounted cs fresh r Hrun accounted_fresh)
    as (Hb & Hl & Hlast).
  pose proof (text_lines_bounds (diffs r)) as Hlb.
  split; [| split; [| split]].
  - intros x y p. rewrite report_value. unfold reported, has_room.
    now destruct ((nbytes r <? maxBytes) && (nlines r <? maxLines)).
  - rewrite Hb. apply GoFacts.wrap_small. unfold minInt. lia.
  - rewrite Hl. apply GoFacts.wrap_small. unfold minInt. lia.
  - destruct (GoFacts.snoc_cases (diffs r)) as [E | (init & last & E)].
    + rewrite E. cbn. unfold maxBytes, maxLines. lia.
    + rewrite E, removelast_last.
      destruct (Hlast init last E) as [Bi Li].
      rewrite E, text_bytes_snoc in Hfit.
      pose proof (GoFacts.strlen_nonneg last) as Hn.
      pose proof (text_lines_bounds init) as Hli.
      rewrite GoFacts.wrap_small in Bi by (unfold minInt; lia).
      rewrite GoFacts.wrap_small in Li by (unfold minInt; lia).
      split; assumption.
Qed.

(** C2.  After any calls on a fresh reporter (fewer than 2^63 of them
    unequal leaves), the tally is the number of unequal leaves, the stored
    blocks are the first blocks of the traversal in their order, and
    [String] returns their concatenation when all leaves are stored, and
    otherwise that concatenation followed by a suffix without a line break
    that prints the tally minus the number of stored blocks. *)
Theorem final_report_text (cs : trace) (r : reporter) :
  run cs fresh = Ok r ->
  unequal_tally cs <= maxInt ->
  ndiffs r = unequal_tally cs /\
  (exists k, diffs r = firstn k (leaves [] cs)) /\
  0 <= unequal_tally cs - len (diffs r) /\
  fst (String r) =
    (if unequal_tally cs =? len (diffs r)
     then strings_Join (diffs r) ""
     else (strings_Join (diffs r) "" ++
           more_suffix (unequal_tally cs - len (diffs r)))%string) /\
  strings_Count (more_suffix (unequal_tally cs - len (diffs r))) newline = 0.
Proof.
  intros Hrun Hfit.
  assert (Hn : ndiffs r = unequal_tally cs).
  { rewrite (run_tally cs fresh r Hrun); cbn [fresh ndiffs];
      unfold minInt; lia. }
  destruct (run_leaves cs fresh r [] Hrun) as (k & Hk);
    [split; reflexivity |].
  cbn [fresh diffs app] in Hk.
  assert (Hle : len (diffs r) <= unequal_tally cs).
  { pose proof (leaves_length cs []) as Hl.
    rewrite Hk. unfold len in *. rewrite length_firstn. lia. }
  pose proof (GoFacts.len_nonneg (diffs r)) as H0.
  repeat split.
  - exact Hn.
  - now exists k.
  - lia.
  - rewrite String_text, Hn. unfold int_sub.
    rewrite GoFacts.wrap_small by (unfold minInt; lia). reflexivity.
  - apply more_suffix_one_line.
Qed.

(** C3.  Every unequal report adds one to the tally, whatever the totals
    are (as long as the tally fits an [int]); and once the byte total or
    the line total has reached its cap, no later call changes the stored
    blocks or the two totals. *)
Theorem truncation_latch (cs : trace) (r r' : reporter) :
  run cs r = Ok r' ->
  minInt <= ndiffs r ->
  ndiffs r + unequal_tally cs <= maxInt ->
  ndiffs r' = ndiffs r + unequal_tally cs /\
  (maxBytes <= nbytes r \/ maxLines <= nlines r ->
   diffs r' = diffs r /\ nbytes r' = nbytes r /\ nlines r' = nlines r).
Proof.
  intros Hrun Hlo Hhi. split.
  - now apply run_tally.
  - intros Hcap. apply (run_latched cs r r'); [| exact Hrun].
    unfold has_room. apply andb_false_iff.
    destruct Hcap; [left | right]; lia.
Qed.

(** C4.  While there is room, [report] formats both values in the friendly
    mode; when the two texts are identical it formats both again in the
    exact mode and stores the block made of the exact texts; when they
    differ it calls the formatter no further and stores the block made of
    the friendly texts. *)
Theorem report_rerenders_identical (x y : Value) (p : Path PathStep)
  (r : reporter) :
  nbytes r < maxBytes -> nlines r < maxLines ->
  (value_Format x friendly = value_Format y friendly ->
   Fmt.calls (report x y p r) =
     [(x, friendly); (y, friendly); (x, exact); (y, exact)] /\
   diffs (Fmt.value (report x y p r)) =
     diffs r ++
     [Sprintf_diff p (value_Format x exact)
        (value_Format y exact)]) /\
  (value_Format x friendly <> value_Format y friendly ->
   Fmt.calls (report x y p r) = [(x, friendly); (y, friendly)] /\
   diffs (Fmt.value (report x y p r)) =
     diffs r ++
     [Sprintf_diff p (value_Format x friendly)
        (value_Format y friendly)]).
Proof.
  intros Hb Hl.
  assert (Hroom : has_room r = true).
  { unfold has_room. apply andb_true_iff. split; lia. }
  rewrite report_calls, report_value.
  unfold reported, render. rewrite Hroom. cbn [diffs].
  split; intros H.
  - apply String.eqb_eq in H. rewrite H. now split.
  - apply String.eqb_neq in H. rewrite H. now split.
Qed.

(** C5.  [Report] with the Equal or the Ignore verdict, and with any flags
    other than Unequal, returns the reporter as it was; a [Report] that
    changes the reporter carries Unequal, and [Report] with Unequal does
    change it. *)
Theorem Report_frame (r : reporter) :
  Report reportEqual r = Ok r /\
  Report reportIgnore r = Ok r /\
  (forall f, f <> reportUnequal -> Report f r = Ok r) /\
  (forall f r', Report f r = Ok r' -> r' <> r -> f = reportUnequal) /\
  (forall r', Report reportUnequal r = Ok r' -> r' <> r).
Proof.
  split; [| split; [| split; [| split]]].
  - apply Report_other. discriminate.
  - apply Report_other. discriminate.
  - intros f Hf. now apply Report_other.
  - intros f r' H Hne.
    destruct (Z.eq_dec f reportUnequal) as [E | E]; [exact E |].
    rewrite (Report_other f r E) in H. injection H as <-. contradiction.
  - intros r' H Heq.
    destruct (GoFacts.snoc_cases (curVals r)) as [E | (vs & [x y] & E)].
    + rewrite (Report_unequal_empty r E) in H. discriminate.
    + rewrite (Report_unequal_last r vs x y E) in H. injection H as <-.
      apply (f_equal ndiffs) in Heq.
      apply (GoFacts.wrap_succ_neq (ndiffs r)).
      unfold reported in Heq.
      destruct (has_room r); exact Heq.
Qed.

(** C6.  A balanced sequence of calls without an unequal verdict runs to
    the end on a fresh reporter, and [String] then returns the empty
    string. *)
Theorem no_unequal_empty_report (cs : trace) :
  balanced cs = true ->
  existsb is_unequal cs = false ->
  exists r, run cs fresh = Ok r /\ fst (String r) = ""%string.
Proof.
  intros Hbal Hq. unfold balanced in Hbal.
  destruct (protocol 0 cs) as [[| d] |] eqn:Hp; try discriminate.
  destruct (protocol_run cs fresh 0 0 eq_refl eq_refl Hp) as (r & Hrun & _).
  exists r. split; [exact Hrun |].
  destruct (run_quiet cs fresh r Hq Hrun) as [Ed En].
  rewrite String_text, Ed, En. reflexivity.
Qed.

(** C7.  Along a well-nested sequence of calls on a fresh reporter, after
    every prefix the reporter is there, the length of its path is the
    number of pushes minus the number of pops so far, which is never
    negative; [PushStep] makes the path one longer and a [PopStep] that
    returns makes it one shorter. *)
Theorem path_length_is_depth (pre post : trace) (d : nat) :
  protocol 0 (pre ++ post) = Some d ->
  exists r,
    run pre fresh = Ok r /\
    len (curPath r) = pushes pre - pops pre /\
    0 <= pushes pre - pops pre /\
    (forall ps x y, len (curPath (PushStep ps x y r)) = len (curPath r) + 1) /\
    (forall r', PopStep r = Ok r' -> len (curPath r') = len (curPath r) - 1).
Proof.
  intros Hp. apply protocol_app in Hp as (d1 & Hp & _).
  destruct (protocol_run pre fresh 0 d1 eq_refl eq_refl Hp) as (r & Hrun & _).
  exists r. pose proof (run_depth pre fresh r Hrun) as Hd.
  cbn [fresh curPath] in Hd. change (len []) with 0 in Hd.
  pose proof (GoFacts.len_nonneg (curPath r)) as H0.
  split; [exact Hrun |]. do 2 (split; [lia |]). split.
  - intros ps x y. unfold PushStep, Path_push, append. cbn [curPath].
    now rewrite GoFacts.len_app.
  - intros r' Hpop.
    pose proof (run_depth [CPopStep] r r' (run_one CPopStep r r' Hpop)) as H1.
    change (pushes [CPopStep]) with 0 in H1.
    change (pops [CPopStep]) with 1 in H1. lia.
Qed.

Lemma len_zero {A : Type} (l : list A) : len l = 0 -> l = [].
Proof. destruct l; [reflexivity | unfold len; cbn; lia]. Qed.

Lemma len_pos {A : Type} (l : list A) :
  0 < len l -> exists l' a, l = l' ++ [a].
Proof.
  intros H. destruct (GoFacts.snoc_cases l) as [-> | E]; [| exact E].
  unfold len in H. cbn in H. lia.
Qed.

(** C8.  At depth 0, [PopStep] and [Report] with Unequal panic; a panic of
    one call is the panic of the whole run, so that a sequence of calls that
    breaks the protocol ends in a panic; at a depth above 0, [PopStep] and
    [Report] return. *)
Theorem protocol_violation_panics (r : reporter) :
  (len (curPath r) = 0 \/ len (curVals r) = 0 ->
   PopStep r = Panic SliceBoundsOutOfRange) /\
  (len (curVals r) = 0 ->
   Report reportUnequal r = Panic IndexOutOfRange) /\
  (forall c cs e, step c r = Panic e -> run (c :: cs) r = Panic e) /\
  (forall cs, protocol 0 cs = None -> exists e, run cs fresh = Panic e) /\
  (0 < len (curPath r) -> 0 < len (curVals r) ->
   exists r', PopStep r = Ok r') /\
  (0 < len (curVals r) -> forall f, exists r', Report f r = Ok r').
Proof.
  split; [| split; [| split; [| split; [| split]]]].
  - intros [H | H]; apply len_zero in H; apply PopStep_empty; auto.
  - intros H. apply len_zero in H. now apply Report_unequal_empty.
  - intros c cs e H. cbn [run]. now rewrite H.
  - intros cs Hp. destruct (run cs fresh) as [r' | e] eqn:Hrun.
    + destruct (run_protocol cs fresh r' eq_refl Hrun) as [Hq _].
      cbn [fresh curVals List.length] in Hq. congruence.
    + now exists e.
  - intros Hp Hv.
    apply len_pos in Hp as (p & ps & Ep). apply len_pos in Hv as (vs & v & Ev).
    rewrite (PopStep_last r p ps vs v Ep Ev). eexists. reflexivity.
  - intros Hv f. apply len_pos in Hv as (vs & [x y] & Ev).
    destruct (Z.eq_dec f reportUnequal) as [-> | Hf].
    + rewrite (Report_unequal_last r vs x y Ev). eexists. reflexivity.
    + exists r. now apply Report_other.
Qed.

(** C9.  [String] hands the reporter back as it was, so that a second call
    returns the same text as the first. *)
Theorem String_idempotent (r : reporter) :
  snd (String r) = r /\
  fst (String (snd (String r))) = fst (String r).
Proof.
  assert (H : snd (String r) = r).
  { unfold String. now destruct (ndiffs r =? len (diffs r)). }
  split; [exact H | now rewrite H].
Qed.

(** C10.  After any calls on a fresh reporter the path and the value stack
    have the same length: they are the steps and the value pairs of the
    pushes still open, so that the pair at any depth is the one pushed
    with the step at that depth. *)
Theorem stacks_in_lockstep (cs : trace) (r : reporter) :
  run cs fresh = Ok r ->
  len (curPath r) = len (curVals r) /\
  exists stk,
    open_frames [] cs = Some stk /\
    curPath r = map fst stk /\ curVals r = map snd stk /\
    forall d ps xy,
      nth_error stk d = Some (ps, xy) ->
      nth_error (curPath r) d = Some ps /\ nth_error (curVals r) d = Some xy.
Proof.
  intros Hrun.
  destruct (run_frames cs fresh r [] Hrun) as (stk & Hof & Hp & Hv);
    [split; reflexivity |].
  split.
  - unfold len. now rewrite Hp, Hv, !length_map.
  - exists stk. do 3 (split; [assumption |]).
    intros d ps xy Hd. split.
    + rewrite Hp. now apply (map_nth_error fst) in Hd.
    + rewrite Hv. now apply (map_nth_error snd) in Hd.
Qed.

End ReporterFacts.

(** ** The theorems at work on the small instance *)

(** C1 does not hold as a bound on the whole stored text.  One leaf of
    5000-byte values is stored whole, and the 86th three-line block is
    stored on top of 255 lines: the stored text exceeds 4096 bytes in the
    first traversal and 256 lines in the second. *)
Lemma stored_text_exceeds_caps :
  (exists r, Demo.exec Demo.huge fresh = Ok r /\
             List.length (diffs r) = 1%nat /\
             text_bytes (diffs r) = 10020 /\
             maxBytes < text_bytes (diffs r)) /\
  (exists r, Demo.exec (Demo.slice 86) fresh = Ok r /\
             List.length (diffs r) = 86%nat /\
             text_lines (diffs r) = 258 /\
             maxLines < text_lines (diffs r)).
Proof.
  split.
  - exists (Demo.after Demo.huge fresh).
    do 3 (split; [evaluate |]). evaluate.
  - exists (Demo.after (Demo.slice 86) fresh).
    do 3 (split; [evaluate |]). evaluate.
Qed.

(** 87 unequal elements: 86 blocks are stored, the first 85 stay below the
    caps. *)
Lemma stored_text_within_caps_but_last_witness :
  let cs := Demo.slice 87 in
  let r := Demo.after cs fresh in
  Demo.exec cs fresh = Ok r /\
  text_bytes (diffs r) <= maxInt /\
  nbytes r = text_bytes (diffs r) /\
  nlines r = text_lines (diffs r) /\
  text_bytes (removelast (diffs r)) < maxBytes /\
  text_lines (removelast (diffs r)) < maxLines.
Proof.
  intros cs r.
  assert (Hrun : Demo.exec cs fresh = Ok r) by evaluate.
  assert (Hfit : text_bytes (diffs r) <= maxInt) by evaluate.
  split; [exact Hrun |]. split; [exact Hfit |].
  exact (proj2 (stored_text_within_caps_but_last
                                    cs r Hrun Hfit)).
Defined.

(** 100 unequal elements, 86 of them stored. *)
Lemma final_report_text_witness :
  let cs := Demo.slice 100 in
  let r := Demo.after cs fresh in
  Demo.exec cs fresh = Ok r /\
  unequal_tally cs <= maxInt /\
  ndiffs r = unequal_tally cs /\
  (exists k, diffs r = firstn k (leaves [] cs)) /\
  0 <= unequal_tally cs - len (diffs r) /\
  Demo.text r =
    (if unequal_tally cs =? len (diffs r)
     then strings_Join (diffs r) ""
     else (strings_Join (diffs r) "" ++
           more_suffix (unequal_tally cs - len (diffs r)))%string) /\
  strings_Count (more_suffix (unequal_tally cs - len (diffs r))) newline = 0.
Proof.
  intros cs r.
  assert (Hrun : Demo.exec cs fresh = Ok r) by evaluate.
  assert (Hfit : unequal_tally cs <= maxInt) by evaluate.
  split; [exact Hrun |]. split; [exact Hfit |].
  exact (final_report_text            cs r Hrun Hfit).
Defined.

(** Three more unequal elements after the line cap has been reached. *)
Lemma truncation_latch_witness :
  let r := Demo.after (CPushStep "{[]int}"%string Demo.root Demo.root
                         :: Demo.elems 86) fresh in
  let cs := Demo.elems 3 in
  let r' := Demo.after cs r in
  Demo.exec cs r = Ok r' /\
  minInt <= ndiffs r /\
  ndiffs r + unequal_tally cs <= maxInt /\
  (maxBytes <= nbytes r \/ maxLines <= nlines r) /\
  ndiffs r' = ndiffs r + unequal_tally cs /\
  diffs r' = diffs r /\ nbytes r' = nbytes r /\ nlines r' = nlines r.
Proof.
  intros r cs r'.
  assert (Hrun : Demo.exec cs r = Ok r') by evaluate.
  assert (Hlo : minInt <= ndiffs r) by evaluate.
  assert (Hhi : ndiffs r + unequal_tally cs <= maxInt) by evaluate.
  assert (Hcap : maxBytes <= nbytes r \/ maxLines <= nlines r)
    by (right; evaluate).
  destruct (truncation_latch               cs r r' Hrun Hlo Hhi) as [Hn Hkeep].
  split; [exact Hrun |]. split; [exact Hlo |]. split; [exact Hhi |].
  split; [exact Hcap |]. split; [exact Hn | exact (Hkeep Hcap)].
Defined.

(** Two errors that both print as [boom]. *)
Lemma report_rerenders_identical_witness :
  let x := Demo.boom1 in
  let y := Demo.boom2 in
  let p := ["{error}"%string] in
  let r : Demo.reporter := fresh in
  nbytes r < maxBytes /\ nlines r < maxLines /\
  Demo.format x friendly = Demo.format y friendly /\
  Fmt.calls (report x y p r) =
    [(x, friendly); (y, friendly); (x, exact); (y, exact)] /\
  diffs (Fmt.value (report x y p r)) =
    diffs r ++
    [Sprintf_diff p (Demo.format x exact)
       (Demo.format y exact)].
Proof.
  intros x y p r.
  assert (Hb : nbytes r < maxBytes) by evaluate.
  assert (Hl : nlines r < maxLines) by evaluate.
  assert (Hsame : Demo.format x friendly = Demo.format y friendly)
    by reflexivity.
  split; [exact Hb |]. split; [exact Hl |]. split; [exact Hsame |].
  exact (proj1 (report_rerenders_identical
                                    x y p r Hb Hl) Hsame).
Defined.

(** Ignore and Unequal on a root leaf. *)
Lemma Report_frame_witness :
  let r := Demo.after [CPushStep "{int}"%string (Demo.int 1) (Demo.int 2)]
             fresh in
  let r' := Demo.after [CReport reportUnequal] r in
  reportIgnore <> reportUnequal /\
  Report reportIgnore r = Ok r /\
  Report reportUnequal r = Ok r' /\
  r' <> r.
Proof.
  intros r r'.
  destruct (Report_frame r)
    as (_ & _ & Hother & _ & Hmut).
  assert (Hne : reportIgnore <> reportUnequal) by evaluate.
  assert (Hrep : Report reportUnequal r = Ok r')
    by evaluate.
  split; [exact Hne |]. split; [exact (Hother reportIgnore Hne) |].
  split; [exact Hrep | exact (Hmut r' Hrep)].
Defined.

(** An equal and an ignored field. *)
Lemma no_unequal_empty_report_witness :
  balanced Demo.same = true /\
  existsb is_unequal Demo.same = false /\
  exists r, Demo.exec Demo.same fresh = Ok r /\ Demo.text r = ""%string.
Proof.
  assert (Hbal : balanced Demo.same = true) by evaluate.
  assert (Hq : existsb is_unequal Demo.same = false) by evaluate.
  split; [exact Hbal |]. split; [exact Hq |].
  exact (no_unequal_empty_report            Demo.same Hbal Hq).
Defined.

(** The traversal of [Age], cut after the report. *)
Lemma path_length_is_depth_witness :
  let pre := firstn 3 Demo.age in
  let post := skipn 3 Demo.age in
  protocol 0 (pre ++ post) = Some 0%nat /\
  exists r : Demo.reporter,
    Demo.exec pre fresh = Ok r /\
    len (curPath r) = pushes pre - pops pre /\
    0 <= pushes pre - pops pre /\
    (forall ps x y, len (curPath (PushStep ps x y r)) = len (curPath r) + 1) /\
    (forall r', PopStep r = Ok r' -> len (curPath r') = len (curPath r) - 1).
Proof.
  intros pre post.
  assert (Hp : protocol 0 (pre ++ post) = Some 0%nat) by evaluate.
  split; [exact Hp |].
  exact (path_length_is_depth            pre post 0%nat Hp).
Defined.

(** At depth 0 and at depth 2. *)
Lemma protocol_violation_panics_witness :
  let r0 : Demo.reporter := fresh in
  let r1 := Demo.after (firstn 2 Demo.age) fresh in
  len (curVals r0) = 0 /\
  PopStep r0 = Panic SliceBoundsOutOfRange /\
  Report reportUnequal r0 = Panic IndexOutOfRange /\
  protocol 0 (CPopStep :: Demo.age) = None /\
  (exists e, Demo.exec (CPopStep :: Demo.age) fresh = Panic e) /\
  0 < len (curPath r1) /\ 0 < len (curVals r1) /\
  (exists r', PopStep r1 = Ok r') /\
  (exists r', Report reportUnequal r1 = Ok r').
Proof.
  intros r0 r1.
  destruct (protocol_violation_panics
              r0)
    as (Hpop0 & Hrep0 & _ & Hrun0 & _).
  destruct (protocol_violation_panics
              r1)
    as (_ & _ & _ & _ & Hpop1 & Hrep1).
  assert (H0 : len (curVals r0) = 0) by evaluate.
  assert (Hbad : protocol 0 (CPopStep :: Demo.age) = None) by evaluate.
  assert (Hp1 : 0 < len (curPath r1)) by evaluate.
  assert (Hv1 : 0 < len (curVals r1)) by evaluate.
  split; [exact H0 |]. split; [exact (Hpop0 (or_intror H0)) |].
  split; [exact (Hrep0 H0) |]. split; [exact Hbad |].
  split; [exact (Hrun0 _ Hbad) |]. split; [exact Hp1 |]. split; [exact Hv1 |].
  split; [exact (Hpop1 Hp1 Hv1) | exact (Hrep1 Hv1 reportUnequal)].
Defined.

(** The two frames open when [Age] is reported. *)
Lemma stacks_in_lockstep_witness :
  let cs := firstn 3 Demo.age in
  let r := Demo.after cs fresh in
  Demo.exec cs fresh = Ok r /\
  len (curPath r) = len (curVals r) /\
  exists stk,
    open_frames [] cs = Some stk /\
    curPath r = map fst stk /\ curVals r = map snd stk /\
    forall d ps xy,
      nth_error stk d = Some (ps, xy) ->
      nth_error (curPath r) d = Some ps /\ nth_error (curVals r) d = Some xy.
Proof.
  intros cs r.
  assert (Hrun : Demo.exec cs fresh = Ok r) by evaluate.
  split; [exact Hrun |].
  exact (stacks_in_lockstep            cs r Hrun).
Defined.

(** * Further properties of the reporter *)

Section MoreFacts.

Context {Value PathStep : Type} {ext : External Value PathStep}.

Local Abbreviation reporter := (defaultReporter Value PathStep).
Local Abbreviation trace := (list (call Value PathStep)).

(** ** The size of a block *)

(** The fixed text of the format adds 12 bytes, 3 of them line breaks. *)
Lemma Sprintf_diff_size (p : Path PathStep) (sx sy : string) :
  strlen (Sprintf_diff p sx sy) =
    strlen (Path_GoString p) + strlen sx + strlen sy + 12 /\
  strings_Count (Sprintf_diff p sx sy) newline =
    strings_Count (Path_GoString p) newline + strings_Count sx newline
    + strings_Count sy newline + 3.
Proof.
  unfold Sprintf_diff. split.
  - rewrite !GoFacts.strlen_append.
    change (strlen ":") with 1. change (strlen nl) with 1.
    change (strlen tb) with 1. change (strlen "-: ") with 3.
    change (strlen "+: ") with 3. lia.
  - rewrite !GoFacts.Count_append.
    change (strings_Count ":" newline) with 0.
    change (strings_Count nl newline) with 1.
    change (strings_Count tb newline) with 0.
    change (strings_Count "-: " newline) with 0.
    change (strings_Count "+: " newline) with 0. lia.
Qed.

Lemma render_block (x y : Value) (p : Path PathStep) :
  block_like (render x y p).
Proof.
  unfold render, block_like.
  destruct (String.eqb (value_Format x friendly) (value_Format y friendly)).
  - destruct (Sprintf_diff_size p (value_Format x exact)
                (value_Format y exact)) as [-> ->].
    pose proof (GoFacts.Count_bounds (Path_GoString p) newline).
    pose proof (GoFacts.Count_bounds (value_Format x exact) newline).
    pose proof (GoFacts.Count_bounds (value_Format y exact) newline).
    lia.
  - destruct (Sprintf_diff_size p (value_Format x friendly)
                (value_Format y friendly)) as [-> ->].
    pose proof (GoFacts.Count_bounds (Path_GoString p) newline).
    pose proof (GoFacts.Count_bounds (value_Format x friendly) newline).
    pose proof (GoFacts.Count_bounds (value_Format y friendly) newline).
    lia.
Qed.

Lemma leaves_blocks (cs : trace) :
  forall stk : list (frame Value PathStep),
    Forall block_like (leaves stk cs).
Proof.
  induction cs as [| c cs IH]; intros stk; [constructor |].
  destruct c as [ps x y | f |]; cbn [leaves]; try apply IH.
  destruct (f =? reportUnequal); [| apply IH].
  destruct (rev stk) as [| [ps [x y]] t]; [apply IH |].
  constructor; [apply render_block | apply IH].
Qed.

Lemma text_bytes_app (l1 l2 : list string) :
  text_bytes (l1 ++ l2) = text_bytes l1 + text_bytes l2.
Proof.
  unfold text_bytes. now rewrite GoFacts.Join_app, GoFacts.strlen_append.
Qed.

Lemma text_lines_app (l1 l2 : list string) :
  text_lines (l1 ++ l2) = text_lines l1 + text_lines l2.
Proof.
  unfold text_lines. now rewrite GoFacts.Join_app, GoFacts.Count_append.
Qed.

Lemma text_bytes_nonneg (l : list string) : 0 <= text_bytes l.
Proof. apply GoFacts.strlen_nonneg. Qed.

Lemma blocks_size (l : list string) :
  Forall block_like l ->
  12 * len l <= text_bytes l /\ 3 * len l <= text_lines l.
Proof.
  induction 1 as [| b l [Hb Hl] _ [IHb IHl]].
  - cbn. lia.
  - change (b :: l) with ([b] ++ l).
    rewrite GoFacts.len_app, text_bytes_app, text_lines_app.
    change (len [b]) with 1.
    change (text_bytes [b]) with (strlen b).
    change (text_lines [b]) with (strings_Count b newline). lia.
Qed.

Lemma Forall_firstn_of {A : Type} (P : A -> Prop) (k : nat) (l : list A) :
  Forall P l -> Forall P (firstn k l).
Proof.
  intros H. rewrite <- (firstn_skipn k l) in H.
  now apply Forall_app in H.
Qed.

Lemma run_blocks (cs : trace) (r : reporter) :
  run cs fresh = Ok r -> Forall block_like (diffs r).
Proof.
  intros Hrun.
  destruct (run_leaves cs fresh r [] Hrun) as (k & Hk);
    [split; reflexivity |].
  cbn [fresh diffs app] in Hk. rewrite Hk.
  apply Forall_firstn_of, leaves_blocks.
Qed.

(** ** How many blocks are stored *)

Lemma run_but_last (cs : trace) (r : reporter) :
  run cs fresh = Ok r ->
  text_bytes (diffs r) <= maxInt ->
  text_lines (removelast (diffs r)) < maxLines.
Proof.
  intros Hrun Hfit.
  pose proof (run_accounted cs fresh r Hrun accounted_fresh)
    as (_ & _ & Hlast).
  destruct (GoFacts.snoc_cases (diffs r)) as [E | (init & last & E)].
  - rewrite E. cbn. unfold maxLines. lia.
  - rewrite E, removelast_last.
    destruct (Hlast init last E) as [_ Li].
    rewrite E, text_bytes_snoc in Hfit.
    pose proof (GoFacts.strlen_nonneg last).
    pose proof (text_lines_bounds init).
    rewrite GoFacts.wrap_small in Li by (unfold minInt; lia).
    exact Li.
Qed.

Lemma blocks_but_last_count (l : list string) :
  Forall block_like l ->
  text_lines (removelast l) < maxLines ->
  len l <= 86.
Proof.
  intros Hb Hl.
  destruct (GoFacts.snoc_cases l) as [E | (init & last & E)].
  - rewrite E. cbn. lia.
  - rewrite E in *. rewrite removelast_last in Hl.
    apply Forall_app in Hb as [Hb _]. apply blocks_size in Hb as [_ Hb].
    rewrite GoFacts.len_app. change (len [last]) with 1.
    unfold maxLines in Hl. lia.
Qed.

(** X1.  However many leaves are unequal, a reporter that started fresh
    stores at most 86 blocks (for stored text that fits an [int]): every
    block has at least 3 line breaks and none is stored on top of 256. *)
Theorem stored_blocks_at_most_86 (cs : trace) (r : reporter) :
  run cs fresh = Ok r ->
  text_bytes (diffs r) <= maxInt ->
  len (diffs r) <= 86.
Proof.
  intros Hrun Hfit. apply blocks_but_last_count.
  - now apply (run_blocks cs).
  - now apply (run_but_last cs).
Qed.

(** ** The stored blocks only grow *)

Lemma run_appends (cs : trace) :
  forall r r' : reporter,
    run cs r = Ok r' ->
    exists more, diffs r' = diffs r ++ more /\ len more <= unequal_tally cs.
Proof.
  unfold unequal_tally.
  induction cs as [| c cs IH]; intros r r' Hrun.
  - injection Hrun as <-. exists []. rewrite app_nil_r. cbn. split; [easy | lia].
  - apply run_cons in Hrun as (r1 & Hst & Hrun).
    destruct (IH _ _ Hrun) as (more & Hm & Hlen).
    rewrite count_calls_cons.
    destruct Hst as [ps x y | f Hf | vs x y E | p ps vs v Ep Ev];
      cbn [is_unequal].
    + exists more. split; [exact Hm | lia].
    + exists more. split; [exact Hm |].
      destruct (f =? reportUnequal); lia.
    + rewrite Z.eqb_refl. unfold reported in Hm.
      destruct (has_room r); cbn [diffs] in Hm.
      * exists (render x y (curPath r) :: more).
        split; [now rewrite Hm, <- app_assoc |].
        change (render x y (curPath r) :: more)
          with ([render x y (curPath r)] ++ more).
        rewrite GoFacts.len_app.
        change (len [render x y (curPath r)]) with 1. lia.
      * exists more. split; [exact Hm | lia].
    + exists more. split; [exact Hm | lia].
Qed.

(** X2.  From any reporter, a run that returns has only appended to the
    stored blocks, at most one block for each unequal verdict: the text of
    the stored blocks before the run is the beginning of their text after
    it. *)
Theorem diffs_append_only (cs : trace) (r r' : reporter) :
  run cs r = Ok r' ->
  exists more,
    diffs r' = diffs r ++ more /\
    len more <= unequal_tally cs /\
    strings_Join (diffs r') "" =
      (strings_Join (diffs r) "" ++ strings_Join more "")%string.
Proof.
  intros Hrun. destruct (run_appends cs r r' Hrun) as (more & Hm & Hlen).
  exists more. split; [exact Hm |]. split; [exact Hlen |].
  now rewrite Hm, GoFacts.Join_app.
Qed.

(** ** An empty report means no difference *)

Lemma tally_zero_quiet (cs : trace) :
  unequal_tally cs = 0 <-> existsb is_unequal cs = false.
Proof.
  unfold unequal_tally. induction cs as [| c cs IH]; [now split |].
  rewrite count_calls_cons. cbn [existsb].
  pose proof (count_calls_nonneg is_unequal cs).
  destruct (is_unequal c); cbn [orb].
  - split; [lia | discriminate].
  - rewrite <- IH. split; lia.
Qed.

Lemma first_stored (cs : trace) :
  forall r r' : reporter,
    run cs r = Ok r' ->
    has_room r = true ->
    0 < unequal_tally cs ->
    diffs r' <> [].
Proof.
  unfold unequal_tally.
  induction cs as [| c cs IH]; intros r r' Hrun Hroom Hpos.
  - cbn in Hpos. lia.
  - apply run_cons in Hrun as (r1 & Hst & Hrun).
    rewrite count_calls_cons in Hpos.
    destruct Hst as [ps x y | f Hf | vs x y E | p ps vs v Ep Ev];
      cbn [is_unequal] in Hpos.
    + apply (IH _ _ Hrun); [exact Hroom | lia].
    + destruct (Z.eqb_spec f reportUnequal); [contradiction |].
      apply (IH _ _ Hrun); [exact Hroom | lia].
    + destruct (run_appends cs _ _ Hrun) as (more & Hm & _).
      unfold reported in Hm. rewrite Hroom in Hm. cbn [diffs] in Hm.
      rewrite Hm, <- app_assoc. intros H.
      apply app_eq_nil in H as [_ H]. discriminate.
    + apply (IH _ _ Hrun); [exact Hroom | lia].
Qed.

(** X3.  After any calls on a fresh reporter, [String] returns the empty
    string exactly when no verdict was Unequal: the first unequal leaf is
    always stored, whatever its size, and a block is never empty. *)
Theorem report_empty_iff_no_unequal (cs : trace) (r : reporter) :
  run cs fresh = Ok r ->
  (fst (String r) = ""%string <-> unequal_tally cs = 0).
Proof.
  intros Hrun. split.
  - intros Hempty.
    pose proof (count_calls_nonneg is_unequal cs) as Hn.
    fold (unequal_tally cs) in Hn.
    destruct (Z.eq_dec (unequal_tally cs) 0) as [E | E]; [exact E | exfalso].
    assert (Hne : diffs r <> [])
      by (apply (first_stored cs fresh r Hrun); [reflexivity | lia]).
    pose proof (run_blocks cs r Hrun) as Hb.
    apply blocks_size in Hb as [Hb _].
    assert (Hpos : 0 < len (diffs r)).
    { destruct (diffs r); [contradiction | unfold len; cbn; lia]. }
    apply (f_equal strlen) in Hempty. rewrite String_text in Hempty.
    change (strlen "") with 0 in Hempty. unfold text_bytes in Hb.
    destruct (ndiffs r =? len (diffs r)).
    + lia.
    + rewrite GoFacts.strlen_append in Hempty.
      pose proof (GoFacts.strlen_nonneg
                    (more_suffix (int_sub (ndiffs r) (len (diffs r))))).
      lia.
  - intros Hzero. apply tally_zero_quiet in Hzero.
    destruct (run_quiet cs fresh r Hzero Hrun) as [Ed En].
    rewrite String_text, Ed, En. reflexivity.
Qed.

(** ** Nothing is dropped while there is room *)

Lemma run_leaves_count (cs : trace) :
  forall (r r' : reporter) (stk : list (frame Value PathStep)),
    run cs r = Ok r' -> agree stk r ->
    len (leaves stk cs) = unequal_tally cs.
Proof.
  unfold unequal_tally.
  induction cs as [| c cs IH]; intros r r' stk Hrun Hag; [reflexivity |].
  pose proof (run_frames [c] r) as Hfr.
  apply run_cons in Hrun as (r1 & Hst & Hrun).
  rewrite count_calls_cons.
  destruct Hst as [ps x y | f Hf | vs x y E | p ps vs v Ep Ev].
  - change (is_unequal (CPushStep ps x y)) with false.
    destruct (Hfr _ stk eq_refl Hag) as (stk' & [= <-] & Hag').
    cbn [leaves]. rewrite (IH _ _ _ Hrun Hag'). lia.
  - change (is_unequal (CReport f)) with (f =? reportUnequal).
    cbn [leaves]. destruct (Z.eqb_spec f reportUnequal); [contradiction |].
    rewrite (IH _ _ _ Hrun Hag). lia.
  - change (is_unequal (CReport reportUnequal)) with true.
    destruct (agree_snoc stk r vs (x, y) Hag E) as (stk0 & ps & -> & _ & _).
    rewrite (leaves_unequal (stk0 : list (frame Value PathStep))).
    assert (Hag1 : agree (stk0 ++ [(ps, (x, y))])
                     (reported x y (curPath r) r)).
    { unfold reported, agree in *. now destruct (has_room r). }
    change (render x y (map fst (stk0 ++ [(ps, (x, y))]))
              :: leaves (stk0 ++ [(ps, (x, y))]) cs)
      with ([render x y (map fst (stk0 ++ [(ps, (x, y))]))]
              ++ leaves (stk0 ++ [(ps, (x, y))]) cs).
    rewrite GoFacts.len_app, (IH _ _ _ Hrun Hag1). reflexivity.
  - change (@is_unequal Value PathStep CPopStep) with false.
    destruct (Hfr _ stk (run_one CPopStep r _ (PopStep_last r p ps vs v Ep Ev))
                Hag) as (stk' & Hof & Hag').
    destruct (agree_snoc stk r vs v Hag Ev) as (stk0 & ps' & -> & _ & _).
    assert (Hof' : open_frames stk0 [] = Some stk')
      by (rewrite <- (open_frames_pop stk0 (ps', v) []); exact Hof).
    injection Hof' as <-.
    cbn [leaves]. rewrite removelast_last, (IH _ _ _ Hrun Hag'). lia.
Qed.

Lemma run_room (cs : trace) :
  forall (r r' : reporter) (stk : list (frame Value PathStep)),
    run cs r = Ok r' -> agree stk r -> has_room r' = true ->
    diffs r' = diffs r ++ leaves stk cs.
Proof.
  induction cs as [| c cs IH]; intros r r' stk Hrun Hag Hroom.
  - injection Hrun as <-. cbn. now rewrite app_nil_r.
  - pose proof (run_frames [c] r) as Hfr.
    apply run_cons in Hrun as (r1 & Hst & Hrun).
    destruct Hst as [ps x y | f Hf | vs x y E | p ps vs v Ep Ev].
    + destruct (Hfr _ stk eq_refl Hag) as (stk' & [= <-] & Hag').
      apply (IH _ _ _ Hrun Hag' Hroom).
    + cbn [leaves]. destruct (Z.eqb_spec f reportUnequal); [contradiction |].
      apply (IH _ _ _ Hrun Hag Hroom).
    + destruct (agree_snoc stk r vs (x, y) Hag E) as (stk0 & ps & -> & _ & _).
      rewrite (leaves_unequal (stk0 : list (frame Value PathStep))).
      assert (Hag1 : agree (stk0 ++ [(ps, (x, y))])
                       (reported x y (curPath r) r)).
      { unfold reported, agree in *. now destruct (has_room r). }
      destruct (has_room r) eqn:Hr.
      * rewrite (IH _ _ _ Hrun Hag1 Hroom). unfold reported. rewrite Hr.
        cbn [diffs]. rewrite <- app_assoc. now rewrite (proj1 Hag).
      * exfalso.
        apply run_latched in Hrun as (_ & Eb & El);
          [| unfold reported; now rewrite Hr].
        unfold reported in Eb, El. rewrite Hr in Eb, El.
        cbn [nbytes nlines] in Eb, El.
        unfold has_room in *. rewrite Eb, El, Hr in Hroom. discriminate.
    + destruct (Hfr _ stk (run_one CPopStep r _ (PopStep_last r p ps vs v Ep Ev))
                  Hag) as (stk' & Hof & Hag').
      destruct (agree_snoc stk r vs v Hag Ev) as (stk0 & ps' & -> & _ & _).
      assert (Hof' : open_frames stk0 [] = Some stk')
      by (rewrite <- (open_frames_pop stk0 (ps', v) []); exact Hof).
    injection Hof' as <-.
      cbn [leaves]. rewrite removelast_last.
      apply (IH _ _ _ Hrun Hag' Hroom).
Qed.

(** X4.  After any calls on a fresh reporter that leave both running totals
    below their caps, nothing has been dropped: the stored blocks are the
    blocks of all the unequal leaves, in their order, as many as there were
    unequal verdicts; a block is missing only once a cap has been
    reached. *)
Theorem room_means_nothing_dropped (cs : trace) (r : reporter) :
  run cs fresh = Ok r ->
  nbytes r < maxBytes -> nlines r < maxLines ->
  diffs r = leaves [] cs /\ len (diffs r) = unequal_tally cs.
Proof.
  intros Hrun Hb Hl.
  assert (Hag : agree [] (@fresh Value PathStep)) by (split; reflexivity).
  assert (Hroom : has_room r = true).
  { unfold has_room. apply andb_true_iff. split; lia. }
  pose proof (run_room cs fresh r [] Hrun Hag Hroom) as Hd.
  cbn [fresh diffs app] in Hd. split; [exact Hd |].
  rewrite Hd. apply (run_leaves_count cs fresh r [] Hrun Hag).
Qed.

(** ** A report that fits is complete *)

Lemma removelast_app_cons {A : Type} (l : list A) (a : A) (l' : list A) :
  removelast (l ++ a :: l') = l ++ removelast (a :: l').
Proof. apply removelast_app. discriminate. Qed.

Lemma run_small (cs : trace) :
  forall (r r' : reporter) (stk : list (frame Value PathStep)),
    run cs r = Ok r' -> agree stk r -> accounted r ->
    text_bytes (removelast (diffs r ++ leaves stk cs)) < maxBytes ->
    text_lines (removelast (diffs r ++ leaves stk cs)) < maxLines ->
    diffs r' = diffs r ++ leaves stk cs.
Proof.
  induction cs as [| c cs IH]; intros r r' stk Hrun Hag Hacc Hb Hl.
  - injection Hrun as <-. cbn. now rewrite app_nil_r.
  - pose proof (run_frames [c] r) as Hfr.
    apply run_cons in Hrun as (r1 & Hst & Hrun).
    pose proof (stepped_accounted c r r1 Hst Hacc) as Hacc1.
    destruct Hst as [ps x y | f Hf | vs x y E | p ps vs v Ep Ev].
    + destruct (Hfr _ stk eq_refl Hag) as (stk' & [= <-] & Hag').
      apply (IH _ _ _ Hrun Hag' Hacc1 Hb Hl).
    + cbn [leaves] in *.
      destruct (Z.eqb_spec f reportUnequal); [contradiction |].
      apply (IH _ _ _ Hrun Hag Hacc1 Hb Hl).
    + destruct (agree_snoc stk r vs (x, y) Hag E) as (stk0 & ps & -> & _ & _).
      assert (Hlu : leaves (stk0 ++ [(ps, (x, y))])
                      (CReport reportUnequal :: cs) =
                    render x y (curPath r)
                      :: leaves (stk0 ++ [(ps, (x, y))]) cs).
      { rewrite (proj1 Hag). apply leaves_unequal. }
      rewrite Hlu in Hb, Hl. rewrite Hlu. clear Hlu.
      set (b := render x y (curPath r)) in *.
      set (rest := leaves (stk0 ++ [(ps, (x, y))]) cs) in *.
      assert (Hroom : has_room r = true).
      { rewrite removelast_app_cons, text_bytes_app in Hb.
        rewrite removelast_app_cons, text_lines_app in Hl.
        pose proof (text_bytes_nonneg (removelast (b :: rest))).
        pose proof (text_lines_bounds (removelast (b :: rest))).
        pose proof (text_bytes_nonneg (diffs r)).
        pose proof (text_lines_bounds (diffs r)).
        destruct Hacc as (Eb & El & _).
        unfold has_room. rewrite Eb, El.
        rewrite !GoFacts.wrap_small
          by (unfold minInt, maxInt, maxBytes, maxLines in *; lia).
        apply andb_true_iff. split; lia. }
      assert (Hag1 : agree (stk0 ++ [(ps, (x, y))])
                       (reported x y (curPath r) r)).
      { unfold reported, agree in *. now rewrite Hroom. }
      assert (Ed : diffs (reported x y (curPath r) r) = diffs r ++ [b]).
      { unfold reported. now rewrite Hroom. }
      rewrite (IH _ _ _ Hrun Hag1 Hacc1); fold rest;
        rewrite Ed, <- app_assoc; [reflexivity | exact Hb | exact Hl].
    + destruct (Hfr _ stk (run_one CPopStep r _ (PopStep_last r p ps vs v Ep Ev))
                  Hag) as (stk' & Hof & Hag').
      destruct (agree_snoc stk r vs v Hag Ev) as (stk0 & ps' & -> & _ & _).
      assert (Hof' : open_frames stk0 [] = Some stk')
      by (rewrite <- (open_frames_pop stk0 (ps', v) []); exact Hof).
    injection Hof' as <-.
      cbn [leaves] in *. rewrite removelast_last in *.
      apply (IH _ _ _ Hrun Hag' Hacc1 Hb Hl).
Qed.

(** X5.  When the blocks of all the unequal leaves but the last take fewer
    than 4096 bytes and fewer than 256 line breaks, a fresh reporter stores
    every one of them and [String] returns their concatenation, without a
    suffix. *)
Theorem small_report_is_complete (cs : trace) (r : reporter) :
  run cs fresh = Ok r ->
  text_bytes (removelast (leaves [] cs)) < maxBytes ->
  text_lines (removelast (leaves [] cs)) < maxLines ->
  diffs r = leaves [] cs /\
  fst (String r) = strings_Join (leaves [] cs) "".
Proof.
  intros Hrun Hb Hl.
  assert (Hag : agree [] (@fresh Value PathStep)) by (split; reflexivity).
  pose proof (run_small cs fresh r [] Hrun Hag accounted_fresh Hb Hl) as Hd.
  cbn [fresh diffs app] in Hd. split; [exact Hd |].
  pose proof (run_leaves_count cs fresh r [] Hrun Hag) as Hn.
  assert (Hfew : len (leaves [] cs) <= 86)
    by (apply blocks_but_last_count; [apply leaves_blocks | exact Hl]).
  assert (En : ndiffs r = unequal_tally cs).
  { rewrite (run_tally cs fresh r Hrun); cbn [fresh ndiffs];
      unfold minInt, maxInt; lia. }
  rewrite String_text, En, Hd, <- Hn, Z.eqb_refl. reflexivity.
Qed.

(** ** A sub-traversal gives the stacks back *)

Lemma reported_stacks (x y : Value) (p : Path PathStep) (r : reporter) :
  curPath (reported x y p r) = curPath r /\
  curVals (reported x y p r) = curVals r.
Proof. unfold reported. now destruct (has_room r). Qed.

Lemma length_pos_snoc {A : Type} (l : list A) (d : nat) :
  List.length l = S d -> exists l' a, l = l' ++ [a] /\ List.length l' = d.
Proof.
  intros H. destruct (GoFacts.snoc_cases l) as [-> | (l' & a & ->)].
  - discriminate.
  - exists l', a. split; [reflexivity |].
    rewrite length_app in H. cbn in H. lia.
Qed.

Lemma run_framed (cs : trace) :
  forall (r : reporter) (P p : Path PathStep) (V v : list (Value * Value))
         (d d' : nat),
    curPath r = P ++ p -> curVals r = V ++ v ->
    List.length p = d -> List.length v = d ->
    protocol d cs = Some d' ->
    exists r' p' v',
      run cs r = Ok r' /\
      curPath r' = P ++ p' /\ curVals r' = V ++ v' /\
      List.length p' = d' /\ List.length v' = d'.
Proof.
  induction cs as [| c cs IH]; intros r P p V v d d' Hp Hv Lp Lv Hd.
  - injection Hd as <-. now exists r, p, v.
  - destruct c as [ps x y | f |]; cbn [protocol run step] in *.
    + cbn [Go.bind].
      apply (IH _ P (p ++ [ps]) V (v ++ [(x, y)]) (S d)); try exact Hd.
      * cbn. unfold Path_push, append. now rewrite Hp, app_assoc.
      * cbn. unfold append. now rewrite Hv, app_assoc.
      * rewrite length_app. cbn. lia.
      * rewrite length_app. cbn. lia.
    + destruct (Z.eq_dec f reportUnequal) as [-> | Hf].
      * rewrite Z.eqb_refl in Hd. cbn [andb] in Hd.
        destruct d as [| d0]; [discriminate |]. cbn [Nat.eqb] in Hd.
        destruct (length_pos_snoc v d0 Lv) as (v0 & [x y] & -> & _).
        rewrite app_assoc in Hv.
        rewrite (Report_unequal_last r _ x y Hv). cbn [Go.bind].
        destruct (reported_stacks x y (curPath r) r) as [Ep Ev].
        apply (IH _ P p V (v0 ++ [(x, y)]) (S d0)); try assumption.
        -- now rewrite Ep.
        -- now rewrite Ev, Hv, <- app_assoc.
      * rewrite (Report_other f r Hf). cbn [Go.bind].
        destruct (Z.eqb_spec f reportUnequal); [contradiction |].
        cbn [andb] in Hd. now apply (IH _ P p V v d).
    + destruct d as [| d0]; [discriminate |].
      destruct (length_pos_snoc p d0 Lp) as (p0 & ps & -> & Lp0).
      destruct (length_pos_snoc v d0 Lv) as (v0 & xy & -> & Lv0).
      rewrite app_assoc in Hp, Hv.
      rewrite (PopStep_last r _ ps _ xy Hp Hv). cbn [Go.bind].
      now apply (IH _ P p0 V v0 d0).
Qed.

Lemma run_quiet_totals (cs : trace) :
  forall r r' : reporter,
    existsb is_unequal cs = false -> run cs r = Ok r' ->
    nbytes r' = nbytes r /\ nlines r' = nlines r.
Proof.
  induction cs as [| c cs IH]; intros r r' Hq Hrun.
  - injection Hrun as <-. auto.
  - cbn [existsb] in Hq. apply orb_false_iff in Hq as [Hc Hq].
    apply run_cons in Hrun as (r1 & Hst & Hrun).
    apply (IH _ _ Hq) in Hrun.
    destruct Hst; cbn [is_unequal] in Hc; try exact Hrun.
    now rewrite Z.eqb_refl in Hc.
Qed.

(** X6.  A balanced sequence of calls never panics, whatever the reporter it
    starts from, and gives back the path and the value stack it found; when
    none of its verdicts is Unequal it gives back the whole reporter.  So
    [PopStep] undoes [PushStep]. *)
Theorem balanced_calls_restore_stacks (cs : trace) (r : reporter) :
  balanced cs = true ->
  exists r',
    run cs r = Ok r' /\
    curPath r' = curPath r /\ curVals r' = curVals r /\
    (existsb is_unequal cs = false -> r' = r).
Proof.
  intros Hbal. unfold balanced in Hbal.
  destruct (protocol 0 cs) as [[| d] |] eqn:Hp; try discriminate.
  destruct (run_framed cs r (curPath r) [] (curVals r) [] 0 0)
    as (r' & p' & v' & Hrun & Ep & Ev & Lp & Lv);
    try reflexivity; try (now rewrite app_nil_r); try exact Hp.
  destruct p'; [| discriminate]. destruct v'; [| discriminate].
  rewrite app_nil_r in Ep, Ev.
  exists r'. split; [exact Hrun |]. split; [exact Ep |]. split; [exact Ev |].
  intros Hq.
  destruct (run_quiet cs r r' Hq Hrun) as [Ed En].
  destruct (run_quiet_totals cs r r' Hq Hrun) as [Eb El].
  destruct r, r'; cbn in *; subst; reflexivity.
Qed.

(** ** How often the formatter is called *)

Lemma formats_bound (cs : trace) :
  forall r r' : reporter,
    run cs r = Ok r' ->
    len (formats cs r) <= 4 * (len (diffs r') - len (diffs r)).
Proof.
  induction cs as [| c cs IH]; intros r r' Hrun.
  - injection Hrun as <-. unfold len. cbn [formats List.length]. lia.
  - cbn [run] in Hrun. cbn [formats].
    destruct (step c r) as [r1 | e] eqn:Hs; cbn [Go.bind] in Hrun;
      [| discriminate].
    apply step_stepped in Hs. specialize (IH _ _ Hrun).
    rewrite GoFacts.len_app.
    destruct Hs as [ps x y | f Hf | vs x y E | p ps vs v Ep Ev].
    + change (len (@nil (Value * FormatConfig))) with 0.
      change (diffs (PushStep ps x y r)) with (diffs r) in IH. lia.
    + unfold Report_calls.
      destruct (Z.eqb_spec f reportUnequal); [contradiction |].
      change (len (@nil (Value * FormatConfig))) with 0. lia.
    + unfold Report_calls. rewrite Z.eqb_refl, E, GoFacts.index_last.
      cbn [fst snd]. rewrite report_calls.
      unfold reported in *.
      destruct (has_room r); cbn [diffs] in IH.
      * rewrite GoFacts.len_app in IH.
        change (len [render x y (curPath r)]) with 1 in IH.
        destruct (String.eqb (value_Format x friendly)
                    (value_Format y friendly)); unfold len in *;
          cbn [app List.length]; lia.
      * change (len (@nil (Value * FormatConfig))) with 0. lia.
    + change (len (@nil (Value * FormatConfig))) with 0.
      cbn [diffs] in IH. lia.
Qed.

(** X7.  However long the traversal and however many leaves are unequal, a
    fresh reporter calls the formatter at most 344 times (four times for
    each of at most 86 stored blocks), for stored text that fits an
    [int]. *)
Theorem formatter_calls_bounded (cs : trace) (r : reporter) :
  run cs fresh = Ok r ->
  text_bytes (diffs r) <= maxInt ->
  len (formats cs fresh) <= 344.
Proof.
  intros Hrun Hfit.
  pose proof (formats_bound cs fresh r Hrun) as Hf.
  assert (H86 : len (diffs r) <= 86).
  { apply blocks_but_last_count.
    - now apply (run_blocks cs).
    - now apply (run_but_last cs). }
  cbn [fresh diffs] in Hf. change (len []) with 0 in Hf. lia.
Qed.

(** X8.  Once the byte total or the line total has reached its cap, no
    later call reaches the formatter: the values of the leaves that are
    only counted are never formatted. *)
Theorem latched_formats_nothing (cs : trace) (r r' : reporter) :
  maxBytes <= nbytes r \/ maxLines <= nlines r ->
  run cs r = Ok r' ->
  formats cs r = [].
Proof.
  intros Hcap Hrun.
  pose proof (formats_bound cs r r' Hrun) as Hf.
  assert (Hfull : has_room r = false).
  { unfold has_room. apply andb_false_iff. destruct Hcap; [left | right]; lia. }
  destruct (run_latched cs r r' Hfull Hrun) as (Ed & _).
  rewrite Ed in Hf. destruct (formats cs r); [reflexivity |].
  unfold len in Hf. cbn [List.length] in Hf. lia.
Qed.

(** ** The verdict flags *)

Lemma reportFlags_iota_pow (i : Z) :
  1 <= i -> reportFlags_iota i = 2 ^ (i - 1).
Proof.
  intros Hi. unfold reportFlags_iota. rewrite Z.shiftl_1_l.
  replace i with (1 + (i - 1)) at 1 by lia.
  rewrite Z.pow_add_r by lia. change (2 ^ 1) with 2.
  rewrite Z.mul_comm. apply Z.div_mul. lia.
Qed.

(** X9.  [Report] compares its flags with Unequal for equality: flags that
    hold further bits besides Unequal (Unequal together with Equal or with
    Ignore, say) are not taken for an unequal verdict, and the reporter is
    returned unchanged. *)
Theorem Report_ignores_combined_flags (g : reportFlags) (r : reporter) :
  g <> 0 -> Z.land reportUnequal g = 0 ->
  Report (Z.lor reportUnequal g) r = Ok r.
Proof.
  intros Hg Hdisj. apply Report_other. intros H.
  pose proof (Z.add_lor_land reportUnequal g) as Hadd.
  rewrite H, Hdisj in Hadd. lia.
Qed.

End MoreFacts.

(** ** The further properties on the small instance *)

(** 100 unequal elements. *)
Lemma stored_blocks_at_most_86_witness :
  let cs := Demo.slice 100 in
  let r := Demo.after cs fresh in
  Demo.exec cs fresh = Ok r /\
  text_bytes (diffs r) <= maxInt /\
  len (diffs r) <= 86.
Proof.
  intros cs r.
  assert (Hrun : Demo.exec cs fresh = Ok r) by evaluate.
  assert (Hfit : text_bytes (diffs r) <= maxInt) by evaluate.
  split; [exact Hrun |]. split; [exact Hfit |].
  exact (stored_blocks_at_most_86 cs r Hrun Hfit).
Defined.

(** Three more elements after two. *)
Lemma diffs_append_only_witness :
  let r := Demo.after (CPushStep "{[]int}"%string Demo.root Demo.root
                         :: Demo.elems 2) fresh in
  let cs := Demo.elems 3 in
  let r' := Demo.after cs r in
  Demo.exec cs r = Ok r' /\
  exists more,
    diffs r' = diffs r ++ more /\
    len more <= unequal_tally cs /\
    strings_Join (diffs r') "" =
      (strings_Join (diffs r) "" ++ strings_Join more "")%string.
Proof.
  intros r cs r'.
  assert (Hrun : Demo.exec cs r = Ok r') by evaluate.
  split; [exact Hrun |].
  exact (diffs_append_only cs r r' Hrun).
Defined.

(** The traversal of [Age]. *)
Lemma report_empty_iff_no_unequal_witness :
  let cs := Demo.age in
  let r := Demo.after cs fresh in
  Demo.exec cs fresh = Ok r /\
  (Demo.text r = ""%string <-> unequal_tally cs = 0).
Proof.
  intros cs r.
  assert (Hrun : Demo.exec cs fresh = Ok r) by evaluate.
  split; [exact Hrun |].
  exact (report_empty_iff_no_unequal cs r Hrun).
Defined.

(** 40 unequal elements: 120 lines. *)
Lemma room_means_nothing_dropped_witness :
  let cs := Demo.slice 40 in
  let r := Demo.after cs fresh in
  Demo.exec cs fresh = Ok r /\
  nbytes r < maxBytes /\ nlines r < maxLines /\
  diffs r = leaves [] cs /\ len (diffs r) = unequal_tally cs.
Proof.
  intros cs r.
  assert (Hrun : Demo.exec cs fresh = Ok r) by evaluate.
  assert (Hb : nbytes r < maxBytes) by evaluate.
  assert (Hl : nlines r < maxLines) by evaluate.
  split; [exact Hrun |]. split; [exact Hb |]. split; [exact Hl |].
  exact (room_means_nothing_dropped cs r Hrun Hb Hl).
Defined.

(** 86 unequal elements: the first 85 take 255 lines. *)
Lemma small_report_is_complete_witness :
  let cs := Demo.slice 86 in
  let r := Demo.after cs fresh in
  Demo.exec cs fresh = Ok r /\
  text_bytes (removelast (leaves [] cs)) < maxBytes /\
  text_lines (removelast (leaves [] cs)) < maxLines /\
  diffs r = leaves [] cs /\
  Demo.text r = strings_Join (leaves [] cs) "".
Proof.
  intros cs r.
  assert (Hrun : Demo.exec cs fresh = Ok r) by evaluate.
  assert (Hb : text_bytes (removelast (leaves [] cs)) < maxBytes)
    by evaluate.
  assert (Hl : text_lines (removelast (leaves [] cs)) < maxLines)
    by evaluate.
  split; [exact Hrun |]. split; [exact Hb |]. split; [exact Hl |].
  exact (small_report_is_complete cs r Hrun Hb Hl).
Defined.

(** An equal and an ignored field, visited at depth 2. *)
Lemma balanced_calls_restore_stacks_witness :
  let r := Demo.after (firstn 2 Demo.age) fresh in
  balanced Demo.same = true /\
  existsb is_unequal Demo.same = false /\
  exists r',
    Demo.exec Demo.same r = Ok r' /\
    curPath r' = curPath r /\ curVals r' = curVals r /\ r' = r.
Proof.
  intros r.
  assert (Hbal : balanced Demo.same = true) by evaluate.
  assert (Hq : existsb is_unequal Demo.same = false) by evaluate.
  split; [exact Hbal |]. split; [exact Hq |].
  destruct (balanced_calls_restore_stacks Demo.same r Hbal)
    as (r' & Hrun & Hp & Hv & Hsame).
  exists r'. split; [exact Hrun |]. split; [exact Hp |].
  split; [exact Hv | exact (Hsame Hq)].
Defined.

(** 100 unequal elements. *)
Lemma formatter_calls_bounded_witness :
  let cs := Demo.slice 100 in
  let r := Demo.after cs fresh in
  Demo.exec cs fresh = Ok r /\
  text_bytes (diffs r) <= maxInt /\
  len (formats cs fresh) <= 344.
Proof.
  intros cs r.
  assert (Hrun : Demo.exec cs fresh = Ok r) by evaluate.
  assert (Hfit : text_bytes (diffs r) <= maxInt) by evaluate.
  split; [exact Hrun |]. split; [exact Hfit |].
  exact (formatter_calls_bounded cs r Hrun Hfit).
Defined.

(** Three more unequal elements after the line cap has been reached. *)
Lemma latched_formats_nothing_witness :
  let r := Demo.after (CPushStep "{[]int}"%string Demo.root Demo.root
                         :: Demo.elems 86) fresh in
  let cs := Demo.elems 3 in
  let r' := Demo.after cs r in
  (maxBytes <= nbytes r \/ maxLines <= nlines r) /\
  Demo.exec cs r = Ok r' /\
  formats cs r = [].
Proof.
  intros r cs r'.
  assert (Hcap : maxBytes <= nbytes r \/ maxLines <= nlines r)
    by (right; evaluate).
  assert (Hrun : Demo.exec cs r = Ok r') by evaluate.
  split; [exact Hcap |]. split; [exact Hrun |].
  exact (latched_formats_nothing cs r r' Hcap Hrun).
Defined.

(** Unequal together with Equal, and together with Ignore. *)
Lemma Report_ignores_combined_flags_witness :
  let r : Demo.reporter :=
    Demo.after [CPushStep "{int}"%string (Demo.int 1) (Demo.int 2)] fresh in
  reportEqual <> 0 /\ Z.land reportUnequal reportEqual = 0 /\
  reportIgnore <> 0 /\ Z.land reportUnequal reportIgnore = 0 /\
  Report (Z.lor reportUnequal reportEqual) r = Ok r /\
  Report (Z.lor reportUnequal reportIgnore) r = Ok r.
Proof.
  intros r.
  assert (He : reportEqual <> 0) by evaluate.
  assert (Hde : Z.land reportUnequal reportEqual = 0) by evaluate.
  assert (Hi : reportIgnore <> 0) by evaluate.
  assert (Hdi : Z.land reportUnequal reportIgnore = 0) by evaluate.
  split; [exact He |]. split; [exact Hde |].
  split; [exact Hi |]. split; [exact Hdi |].
  split.
  - exact (Report_ignores_combined_flags reportEqual r He Hde).
  - exact (Report_ignores_combined_flags reportIgnore r Hi Hdi).
Defined.
